(** * ndcube: the N-dimensional 3x3x...x3 twisty puzzle of [rubik3.cpp]

    A shallow embedding of [Rotation], [Point<DIMS>] and [Cube<DIMS>],
    and the properties of the rotation engine, the solved test, the
    unsolvedness score and the randomized solver loop.

    Conventions.
    - [uint8_t] values ([coord_t], [dim_t]) are [N]; [int], [int64_t] and
      [size_t] values are [Z], and every arithmetic step that could leave
      its type has the wrap-around written out ([int32], [int64],
      [to_size_t], [to_uint8]).
    - [std::array<T, n>] is a [list T] of length [n]. A failed [assert],
      a read outside an array and a division by zero stop the program:
      that is the [None] of the option monad. A cell is written only
      after a read of the same cell, or inside a loop over the indices of
      the array.
    - [rand()] reads the next element of a tape of naturals; an empty
      tape gives [None], and so does a loop that runs out of fuel. *)

From Stdlib Require Import ZArith NArith Lia Ascii.
From stdpp Require Import base tactics option list numbers.

Local Open Scope Z_scope.

(** ** Machine integers *)

Definition wrap_signed (bits : Z) (z : Z) : Z :=
  (z + 2 ^ (bits - 1)) mod 2 ^ bits - 2 ^ (bits - 1).

Definition int32 : Z → Z := wrap_signed 32.
Definition int64 : Z → Z := wrap_signed 64.
Definition to_size_t (z : Z) : Z := z mod 2 ^ 64.
Definition to_uint8 (z : Z) : N := Z.to_N (z mod 256).

(** [using coord_t = uint8_t; using dim_t = uint8_t;] *)
Abbreviation coord_t := N (only parsing).
Abbreviation dim_t := N (only parsing).

(** [assert(b)] *)
Definition assert (b : bool) : option unit := if b then Some () else None.

(** [constexpr int64_t ipow(int64_t base, int exp, int64_t result = 1)]:
    [exp < 1 ? result : ipow(base * base, exp / 2, (exp % 2) ? result * base : result)].
    The recursion is on the binary digits of [exp]: for a positive [exp],
    [exp / 2] drops the last digit and [exp % 2] is that digit. The
    argument [base * base] is evaluated at every call, also at the last
    one, where the callee ignores it. *)
Fixpoint ipow_pos (base : Z) (exp : positive) (result : Z) : Z :=
  match exp with
  | xH => int64 (result * base)
  | xO exp' => ipow_pos (int64 (base * base)) exp' result
  | xI exp' => ipow_pos (int64 (base * base)) exp' (int64 (result * base))
  end.

Definition ipow (base : Z) (exp : Z) (result : Z) : Z :=
  match exp with
  | Zpos e => ipow_pos base e result
  | _ => result
  end.

(** [a / b] on [size_t]; a zero divisor traps. *)
Definition div_size_t (a b : Z) : option Z :=
  if b =? 0 then None else Some (a / b).

(** [for (size_t k = 0; k < n; ++k) a[k] = f(k);] *)
Definition fill {A} (n : nat) (f : nat → A) (a : list A) : list A :=
  foldl (λ a k, <[k := f k]> a) a (seq 0 n).

(** The same loop when [f(k)] can stop the program. *)
Definition fillM {A} (n : nat) (f : nat → option A) (a : list A) : option (list A) :=
  foldl (λ oa k, a ← oa; x ← f k; Some (<[k := x]> a)) (Some a) (seq 0 n).

(** ** [enum Side] and [struct Rotation] *)

(** [enum Side { FRONT = 0, BACK = 2 }] is an unscoped enumeration: its
    values are integers, and a cast such as [(Side)rotparts[3]] can put
    an integer in it that is neither enumerator. *)
Abbreviation Side := N (only parsing).
Definition FRONT : Side := 0%N.
Definition BACK : Side := 2%N.

(** The integer a [Side] is compared as, in
    [coords[rotation_axis] != r.side]. *)
Definition Side_value (s : Side) : N := s.

Module Rotation.

Record t := mk { axis : dim_t; from : dim_t; to : dim_t; side : Side }.

(** [while (reject(cur)) cur = rand() % DIMS;] on the tape of [rand()]
    results. *)
Fixpoint redraw (DIMS : N) (reject : N → bool) (cur : N) (tape : list N)
  : option (N * list N) :=
  if reject cur then
    match tape with
    | [] => None
    | x :: tape' => redraw DIMS reject (x mod DIMS)%N tape'
    end
  else Some (cur, tape).

(** [rand()] *)
Definition rand (tape : list N) : option (N * list N) :=
  match tape with
  | [] => None
  | x :: tape' => Some (x, tape')
  end.

(** [template <dim_t DIMS> static auto random() -> Rotation].
    [(Side)side] is the integer [(rand() & 1) * 2] itself; [rand() % 0]
    traps. *)
Definition random (DIMS : N) (tape : list N) : option (t * list N) :=
  '(x, tape) ← rand tape;
  let side := (N.land x 1 * 2)%N in
  assert (negb (DIMS =? 0)%N);;
  '(x, tape) ← rand tape;
  let axis := (x mod DIMS)%N in
  '(x, tape) ← rand tape;
  '(from, tape) ← redraw DIMS (λ from, (from =? axis)%N) (x mod DIMS)%N tape;
  '(x, tape) ← rand tape;
  '(to, tape) ← redraw DIMS (λ to, (to =? axis)%N || (to =? from)%N) (x mod DIMS)%N tape;
  Some (mk (to_uint8 (Z.of_N axis)) (to_uint8 (Z.of_N from)) (to_uint8 (Z.of_N to))
           side, tape).

End Rotation.

(** ** [template <dim_t DIMS> struct Point] *)

Module Point.

(** [using vec = std::array<coord_t, DIMS>] *)
Abbreviation vec := (list coord_t) (only parsing).

Record t := mk { original_coords : vec; coords : vec; orientation : vec }.

(** [v[k]] and [v[k] = x] for a [dim_t] index. *)
Definition get (v : vec) (k : dim_t) : option coord_t := v !! N.to_nat k.
Definition set (v : vec) (k : dim_t) (x : coord_t) : vec := <[N.to_nat k := x]> v.

(** [std::is_sorted] *)
Fixpoint is_sorted (v : vec) : bool :=
  match v with
  | x :: (y :: _) as v' => (x <=? y)%N && is_sorted v'
  | _ => true
  end.

(** [std::count(first, last, value)] *)
Definition count (x : coord_t) (v : vec) : Z :=
  Z.of_nat (length (filter (λ y, y = x) v)).

Section Dims.
Variable DIMS : dim_t.

(** [std::iota(first, last, 0)] on [coord_t] elements. *)
Definition iota : vec :=
  fill (N.to_nat DIMS) (λ k, to_uint8 (Z.of_nat k)) (replicate (N.to_nat DIMS) 0%N).

Definition create (input : vec) : t := mk input input iota.

Definition from_index (i : Z) : option t :=
  vals ← fillM (N.to_nat DIMS)
           (λ index,
              dividend ← div_size_t i (to_size_t (ipow 3 (Z.of_nat index) 1));
              Some (to_uint8 (dividend mod 3)))
           (replicate (N.to_nat DIMS) 0%N);
  Some (create vals).

Definition rotate (r : Rotation.t) (p : t) : option t :=
  let rotation_axis := Rotation.axis r in
  let from_axis := Rotation.from r in
  let to_axis := Rotation.to r in
  assert (negb (rotation_axis =? from_axis)%N && negb (from_axis =? to_axis)%N
          && negb (to_axis =? rotation_axis)%N);;
  assert ((rotation_axis <? DIMS)%N && (from_axis <? DIMS)%N && (to_axis <? DIMS)%N);;
  c_axis ← get (coords p) rotation_axis;
  if negb (c_axis =? Side_value (Rotation.side r))%N then Some p else
  (* std::swap(orientation[from_axis], orientation[to_axis]) *)
  o_from ← get (orientation p) from_axis;
  o_to ← get (orientation p) to_axis;
  let orientation' := set (set (orientation p) from_axis o_to) to_axis o_from in
  let write (new_from new_to : coord_t) : option t :=
    Some (mk (original_coords p)
             (set (set (coords p) from_axis new_from) to_axis new_to)
             orientation') in
  let keep : option t := Some (mk (original_coords p) (coords p) orientation') in
  c_from ← get (coords p) from_axis;
  match c_from with
  | 0%N =>
      c_to ← get (coords p) to_axis;
      match c_to with
      | 0%N => write 2%N 0%N
      | 1%N => write 1%N 0%N
      | 2%N => write 0%N 0%N
      | _ => None
      end
  | 1%N =>
      c_to ← get (coords p) to_axis;
      match c_to with
      | 0%N => write 2%N 1%N
      | 1%N => keep
      | 2%N => write 0%N 1%N
      | _ => None
      end
  | 2%N =>
      c_to ← get (coords p) to_axis;
      match c_to with
      | 0%N => write 2%N 2%N
      | 1%N => write 1%N 2%N
      | 2%N => write 0%N 2%N
      | _ => None
      end
  | _ => None
  end.

Definition is_in_original_position (p : t) : bool :=
  bool_decide (coords p = original_coords p).

Definition is_in_original_orientation (p : t) : bool :=
  is_sorted (orientation p).

Definition is_center (p : t) : bool :=
  count 1%N (coords p) =? Z.of_N DIMS - 1.

(** [std::transform_reduce(coords, original_coords, 0, plus, |a - b|)] *)
Definition dist_from_original (p : t) : Z :=
  foldl (λ acc ab, int32 (acc + Z.abs (Z.of_N ab.1 - Z.of_N ab.2))) 0
        (zip (coords p) (original_coords p)).

Definition incorrectness (p : t) : Z :=
  let smallmod := if is_in_original_orientation p then 0 else 1 in
  int32 (dist_from_original p + int32 (smallmod * 10)).

End Dims.

End Point.

(** ** [template <dim_t DIMS> struct Cube] *)

Module Cube.

Record t := mk { points : list Point.t }.

Section Dims.
Variable DIMS : dim_t.

Definition NUM_POINTS : Z := ipow 3 (Z.of_N DIMS) 1.

(** The value of a default-initialised [Point<DIMS>]: three zeroed
    arrays. *)
Definition blank : Point.t :=
  let zeros := replicate (N.to_nat DIMS) 0%N in Point.mk zeros zeros zeros.

(** [Cube()] *)
Definition new : option t :=
  let n := Z.to_nat (to_size_t NUM_POINTS) in
  mk <$> fillM n (λ idx, Point.from_index DIMS (Z.of_nat idx)) (replicate n blank).

Definition rotate (r : Rotation.t) (c : t) : option t :=
  mk <$> mapM (Point.rotate DIMS r) (points c).

Fixpoint rotate_n (r : Rotation.t) (n : nat) (c : t) : option t :=
  match n with
  | O => Some c
  | S n' => c' ← rotate r c; rotate_n r n' c'
  end.

Definition undo_rotation (r : Rotation.t) (c : t) : option t :=
  rotate_n r 3 c.

Definition is_solved (c : t) : bool :=
  forallb (λ p, Point.is_in_original_position p
                && (Point.is_in_original_orientation p || Point.is_center DIMS p))
          (points c).

Definition unsolvedness (c : t) : Z :=
  foldl (λ acc p, int32 (acc + Point.incorrectness p)) 0 (points c).

(** [shuffle(times)] on the tape of [rand()] results. *)
Fixpoint shuffle (times : nat) (tape : list N) (c : t) : option (t * list N) :=
  match times with
  | O => Some (c, tape)
  | S times' =>
      '(r, tape) ← Rotation.random DIMS tape;
      c ← rotate r c;
      shuffle times' tape c
  end.

(** What [solve] writes to [std::cout]. *)
Inductive output :=
| print_unsolvedness (u : Z)
| print_solved_in (n : nat).

(** The variables of [solve]: the cube, the vector [rotations], the
    tape [rand()] reads and the lines written so far. *)
Record solver := mk_solver {
  cube : t;
  rotations : list Rotation.t;
  tape : list N;
  out : list output;
}.

(** [rotations.pop_back()] *)
Definition pop_back (rs : list Rotation.t) : list Rotation.t :=
  take (length rs - 1)%nat rs.

(** One pass through the body of [while (!is_solved())]. *)
Definition solve_body (s : solver) : option solver :=
  let last_unsolvedness := unsolvedness (cube s) in
  '(r, tape) ← Rotation.random DIMS (tape s);
  c ← rotate r (cube s);
  let rotations := rotations s ++ [r] in
  '(x, tape) ← Rotation.rand tape;
  let random_value := (Z.of_N x) `rem` 100 in
  let current_unsolvedness := unsolvedness c in
  '(c, rotations) ←
    (if current_unsolvedness >? last_unsolvedness then
       if random_value <? 90 then
         c ← undo_rotation r c; Some (c, pop_back rotations)
       else Some (c, rotations)
     else
       if random_value <? 10 then
         c ← undo_rotation r c; Some (c, pop_back rotations)
       else Some (c, rotations));
  Some (mk_solver c rotations tape (out s ++ [print_unsolvedness (unsolvedness c)])).

(** [solve()], with [fuel] bounding the number of passes. *)
Fixpoint solve_loop (fuel : nat) (s : solver) : option solver :=
  if is_solved (cube s) then
    Some (mk_solver (cube s) (rotations s) (tape s)
                    (out s ++ [print_solved_in (length (rotations s))]))
  else
    match fuel with
    | O => None
    | S fuel' => s' ← solve_body s; solve_loop fuel' s'
    end.

Definition solve (fuel : nat) (tape : list N) (c : t) : option solver :=
  solve_loop fuel (mk_solver c [] tape []).

End Dims.

End Cube.

(** ** [split] *)

(** [std::getline(ss, substr, sep)] on the characters still in the
    stream: the characters before the first [sep], and what comes
    behind that [sep]; [None] when the end of the stream was hit, which
    sets [eofbit]. *)
Fixpoint getline (sep : ascii) (stream : list ascii) : list ascii * option (list ascii) :=
  match stream with
  | [] => ([], None)
  | ch :: rest =>
      if (ch =? sep)%char then ([], Some rest)
      else let '(substr, behind) := getline sep rest in (ch :: substr, behind)
  end.

(** [while (ss.good()) { getline(ss, substr, sep); result.push_back(substr); }],
    with [fuel] bounding the number of passes. *)
Fixpoint split_loop (fuel : nat) (sep : ascii) (stream : list ascii)
    (result : list (list ascii)) : option (list (list ascii)) :=
  match fuel with
  | O => None
  | S fuel' =>
      let '(substr, behind) := getline sep stream in
      let result := result ++ [substr] in
      match behind with
      | None => Some result
      | Some stream' => split_loop fuel' sep stream' result
      end
  end.

(** [auto split(const std::string& string, const char sep)]; a pass
    takes at least one character off the stream or ends the loop. *)
Definition split (string : list ascii) (sep : ascii) : option (list (list ascii)) :=
  split_loop (S (length string)) sep string [].

#[global] Instance Rotation_eq_dec : EqDecision Rotation.t.
Proof. solve_decision. Defined.
#[global] Instance Point_eq_dec : EqDecision Point.t.
Proof. solve_decision. Defined.
#[global] Instance Cube_eq_dec : EqDecision Cube.t.
Proof. solve_decision. Defined.

(** ** Vocabulary of the properties *)

(** The largest [DIMS] for which [Cube<DIMS>] is a type: its array bound
    [NUM_POINTS = ipow(3, DIMS)] has to be a constant expression, and from
    [DIMS = 32] on the evaluation of [ipow] leaves [int64_t]. *)
Definition MAX_DIMS : N := 31.

(** The contract [Point::rotate] asserts on its argument. *)
Definition valid_rotation (DIMS : dim_t) (r : Rotation.t) : Prop :=
  Rotation.axis r ≠ Rotation.from r ∧ Rotation.from r ≠ Rotation.to r ∧
  Rotation.to r ≠ Rotation.axis r ∧
  (Rotation.axis r < DIMS)%N ∧ (Rotation.from r < DIMS)%N ∧ (Rotation.to r < DIMS)%N.

(** The side of [r] is one of the two enumerators of [Side]. *)
Definition valid_side (r : Rotation.t) : Prop :=
  Rotation.side r = FRONT ∨ Rotation.side r = BACK.

(** A coordinate vector of the grid [{0,1,2}^DIMS]. *)
Definition in_grid (DIMS : dim_t) (v : Point.vec) : Prop :=
  length v = N.to_nat DIMS ∧ Forall (λ x, (x < 3)%N) v.

(** A value of type [Point<DIMS>] whose current position is in the grid:
    the three arrays have [DIMS] elements. *)
Definition wf_point (DIMS : dim_t) (p : Point.t) : Prop :=
  length (Point.original_coords p) = N.to_nat DIMS ∧
  in_grid DIMS (Point.coords p) ∧
  length (Point.orientation p) = N.to_nat DIMS.

Definition wf_cube (DIMS : dim_t) (c : Cube.t) : Prop :=
  Forall (wf_point DIMS) (Cube.points c).

#[global] Instance valid_rotation_dec DIMS r : Decision (valid_rotation DIMS r).
Proof. unfold valid_rotation. apply _. Defined.
#[global] Instance valid_side_dec r : Decision (valid_side r).
Proof. unfold valid_side. apply _. Defined.
#[global] Instance in_grid_dec DIMS v : Decision (in_grid DIMS v).
Proof. unfold in_grid. apply _. Defined.
#[global] Instance wf_point_dec DIMS p : Decision (wf_point DIMS p).
Proof. unfold wf_point. apply _. Defined.
#[global] Instance wf_cube_dec DIMS c : Decision (wf_cube DIMS c).
Proof. unfold wf_cube. apply _. Defined.

(** The states a program gets to: the constructed cube and what valid
    rotations make of it. *)
Inductive reachable (DIMS : dim_t) : Cube.t → Prop :=
| reachable_new c : Cube.new DIMS = Some c → reachable DIMS c
| reachable_rotate r c c' :
    reachable DIMS c → valid_rotation DIMS r →
    Cube.rotate DIMS r c = Some c' → reachable DIMS c'.

(** Every cell of the grid is the position of exactly one point. *)
Definition occupies_grid (DIMS : dim_t) (c : Cube.t) : Prop :=
  NoDup (Point.coords <$> Cube.points c) ∧
  ∀ v, v ∈ Point.coords <$> Cube.points c ↔ in_grid DIMS v.

(** The position-update table as the specification lists it: old
    [(from, to)] pair, new [(from, to)] pair. *)
Definition position_table : list ((N * N) * (N * N)) :=
  [ ((0, 0), (2, 0)); ((0, 1), (1, 0)); ((0, 2), (0, 0));
    ((1, 0), (2, 1)); ((1, 1), (1, 1)); ((1, 2), (0, 1));
    ((2, 0), (2, 2)); ((2, 1), (1, 2)); ((2, 2), (0, 2)) ]%N.

(** Mixed radix 3 encoding of a coordinate vector: the sum of
    [coords[d] * 3^d]. *)
Fixpoint encode_from (d : nat) (v : Point.vec) : Z :=
  match v with
  | [] => 0
  | x :: v' => Z.of_N x * 3 ^ Z.of_nat d + encode_from (S d) v'
  end.

Definition encode (v : Point.vec) : Z := encode_from 0 v.

(** The base 3 digit [(i / 3^d) mod 3]. *)
Definition digit (i : Z) (d : nat) : N := Z.to_N ((i / 3 ^ Z.of_nat d) mod 3).

(** The first [n] base 3 digits of [i], lowest first. *)
Definition digits (i : Z) (n : nat) : Point.vec := digit i <$> seq 0 n.

(** The point of the solved cube whose index is [i]. *)
Definition home (DIMS : dim_t) (i : Z) : Point.t :=
  Point.create DIMS (digits i (N.to_nat DIMS)).

(** Applying a list of rotations in order. *)
Fixpoint rotate_all (DIMS : dim_t) (rs : list Rotation.t) (c : Cube.t) : option Cube.t :=
  match rs with
  | [] => Some c
  | r :: rs' => c' ← Cube.rotate DIMS r c; rotate_all DIMS rs' c'
  end.

(** The largest [DIMS] for which the [int] sum of [unsolvedness] cannot
    overflow: [3^DIMS] points of incorrectness at most [2 * DIMS + 10]. *)
Definition MAX_DIMS_INT_SUM : N := 16.

(** Fourteen quarter turns of the 3x3x3 cube after which every point is
    back in place and only two face centres are left turned. *)
Definition twist_centres : list Rotation.t :=
  [ Rotation.mk 0 1 2 FRONT; Rotation.mk 0 1 2 BACK;
    Rotation.mk 1 0 2 FRONT; Rotation.mk 1 0 2 BACK;
    Rotation.mk 2 1 0 FRONT; Rotation.mk 2 1 0 BACK;
    Rotation.mk 0 1 2 FRONT;
    Rotation.mk 2 0 1 BACK; Rotation.mk 2 0 1 FRONT;
    Rotation.mk 1 2 0 BACK; Rotation.mk 1 2 0 FRONT;
    Rotation.mk 0 2 1 BACK; Rotation.mk 0 2 1 FRONT;
    Rotation.mk 2 0 1 BACK ]%N.

(** Sample inputs. *)
Definition sample_rotation : Rotation.t := Rotation.mk 1%N 2%N 0%N BACK.

Definition sample_point : Point.t := Point.mk [2; 2; 0]%N [0; 2; 1]%N [0; 1; 2]%N.

Definition sample_point_off : Point.t := Point.mk [1; 0; 2]%N [1; 0; 2]%N [0; 1; 2]%N.

Definition sample_cube : Cube.t := default (Cube.mk []) (Cube.new 3%N).

Definition sample_solver : Cube.solver :=
  Cube.mk_solver sample_cube [] [1; 4; 4; 5; 7; 0; 42]%N [].

(** The quarter turn of a coordinate vector on the slice of [r]. *)
Definition turn_coords (r : Rotation.t) (v : Point.vec) : Point.vec :=
  match Point.get v (Rotation.axis r), Point.get v (Rotation.from r),
        Point.get v (Rotation.to r) with
  | Some a, Some x, Some y =>
      if (a =? Side_value (Rotation.side r))%N
      then Point.set (Point.set v (Rotation.from r) (2 - y)%N) (Rotation.to r) x
      else v
  | _, _, _ => v
  end.

(** The transposition of the orientation on the slice of [r]. *)
Definition turn_orientation (r : Rotation.t) (v o : Point.vec) : Point.vec :=
  match Point.get v (Rotation.axis r), Point.get o (Rotation.from r),
        Point.get o (Rotation.to r) with
  | Some a, Some x, Some y =>
      if (a =? Side_value (Rotation.side r))%N
      then Point.set (Point.set o (Rotation.from r) y) (Rotation.to r) x
      else o
  | _, _, _ => o
  end.

Definition turn (r : Rotation.t) (p : Point.t) : Point.t :=
  Point.mk (Point.original_coords p) (turn_coords r (Point.coords p))
           (turn_orientation r (Point.coords p) (Point.orientation p)).

(** ** Further vocabulary *)

Definition sample_center : Point.t := Point.mk [1; 2; 1]%N [1; 2; 1]%N [0; 1; 2]%N.

(** The quarter turn in the other direction: [from] and [to] exchanged. *)
Definition reverse_rotation (r : Rotation.t) : Rotation.t :=
  Rotation.mk (Rotation.axis r) (Rotation.to r) (Rotation.from r) (Rotation.side r).

(** [undo_rotation] of each rotation of a list, in the order of the list. *)
Fixpoint undo_all (DIMS : dim_t) (rs : list Rotation.t) (c : Cube.t) : option Cube.t :=
  match rs with
  | [] => Some c
  | r :: rs' => c' ← Cube.undo_rotation DIMS r c; undo_all DIMS rs' c'
  end.

Definition sample_rotation_front : Rotation.t := Rotation.mk 1%N 0%N 2%N FRONT.

Definition turned_cube : Cube.t :=
  default (Cube.mk []) (Cube.rotate 3%N sample_rotation sample_cube).

Definition turned_solver : Cube.solver :=
  Cube.mk_solver turned_cube [] [1; 1; 0; 2; 50]%N [].

(** The pieces with [sep] between them. *)
Fixpoint join (sep : ascii) (pieces : list (list ascii)) : list ascii :=
  match pieces with
  | [] => []
  | [piece] => piece
  | piece :: pieces' => piece ++ sep :: join sep pieces'
  end.

(** How often [sep] occurs. *)
Fixpoint occurrences (sep : ascii) (s : list ascii) : nat :=
  match s with
  | [] => O
  | ch :: s' => (if (ch =? sep)%char then 1 else 0) + occurrences sep s'
  end.

(** The sum of a list of integers, with no wrap-around. *)
Definition int_sum (zs : list Z) : Z := foldr Z.add 0 zs.

(** ** Machine integers stay in range *)

Lemma int32_small z : - 2 ^ 31 ≤ z < 2 ^ 31 → int32 z = z.
Proof.
  intros H. unfold int32, wrap_signed.
  change (2 ^ (32 - 1)) with 2147483648 in *. change (2 ^ 32) with 4294967296.
  change (2 ^ 31) with 2147483648 in H.
  rewrite Z.mod_small; lia.
Qed.

Lemma int64_small z : - 2 ^ 63 ≤ z < 2 ^ 63 → int64 z = z.
Proof.
  intros H. unfold int64, wrap_signed.
  change (2 ^ (64 - 1)) with 9223372036854775808 in *.
  change (2 ^ 64) with 18446744073709551616.
  change (2 ^ 63) with 9223372036854775808 in H.
  rewrite Z.mod_small; lia.
Qed.

Lemma to_size_t_small z : 0 ≤ z < 2 ^ 64 → to_size_t z = z.
Proof. intros H. unfold to_size_t. rewrite Z.mod_small; lia. Qed.

Lemma to_uint8_small z : 0 ≤ z < 256 → to_uint8 z = Z.to_N z.
Proof. intros H. unfold to_uint8. rewrite Z.mod_small; lia. Qed.

(** ** [ipow] *)

(** The equation of the source. *)
Lemma ipow_unfold base exp result :
  ipow base exp result =
  if exp <? 1 then result
  else ipow (int64 (base * base)) (exp `quot` 2)
            (if (exp `rem` 2) =? 0 then result else int64 (result * base)).
Proof.
  destruct exp as [|p|p]; try reflexivity.
  assert (Hlt : (Z.pos p <? 1) = false) by (apply Z.ltb_ge; lia).
  rewrite Hlt, Z.quot_div_nonneg, Z.rem_mod_nonneg by lia.
  destruct p as [p|p|]; try reflexivity.
  - replace (Z.pos p~1 / 2) with (Z.pos p)
      by (rewrite Pos2Z.inj_xI; Z.to_euclidean_division_equations; lia).
    replace (Z.pos p~1 mod 2 =? 0) with false; [reflexivity|].
    symmetry. apply Z.eqb_neq. rewrite Pos2Z.inj_xI.
    Z.to_euclidean_division_equations; lia.
  - replace (Z.pos p~0 / 2) with (Z.pos p)
      by (rewrite Pos2Z.inj_xO; Z.to_euclidean_division_equations; lia).
    replace (Z.pos p~0 mod 2 =? 0) with true; [reflexivity|].
    symmetry. apply Z.eqb_eq. rewrite Pos2Z.inj_xO.
    Z.to_euclidean_division_equations; lia.
Qed.

Lemma ipow_3_exact e : 0 ≤ e ≤ 31 → ipow 3 e 1 = 3 ^ e.
Proof.
  intros He.
  assert (Hall : forallb (λ k, ipow 3 (Z.of_nat k) 1 =? 3 ^ Z.of_nat k) (seq 0 32) = true)
    by (vm_compute; reflexivity).
  rewrite forallb_forall in Hall.
  specialize (Hall (Z.to_nat e)).
  rewrite Z2Nat.id in Hall by lia.
  apply Z.eqb_eq, Hall, in_seq. lia.
Qed.

Lemma pow3_pos (e : Z) : 0 ≤ e → 0 < 3 ^ e.
Proof. intros. apply Z.pow_pos_nonneg; lia. Qed.

Lemma pow3_le_31 (e : Z) : 0 ≤ e ≤ 31 → 0 < 3 ^ e ≤ 3 ^ 31.
Proof.
  intros He. split; [apply pow3_pos; lia|].
  apply Z.pow_le_mono_r; lia.
Qed.

(** ** Loops that fill an array *)

Lemma fill_prefix {A} (f : nat → A) (a : list A) (k : nat) :
  (k ≤ length a)%nat → fill k f a = (f <$> seq 0 k) ++ drop k a.
Proof.
  unfold fill. induction k as [|k IH]; intros Hk; [done|].
  rewrite seq_S, foldl_app, IH by lia. simpl.
  destruct (lookup_lt_is_Some_2 a k) as [y Hy]; [lia|].
  rewrite insert_app_r_alt by (rewrite length_fmap, length_seq; lia).
  rewrite length_fmap, length_seq, Nat.sub_diag.
  rewrite (drop_S _ _ _ Hy), fmap_app. simpl.
  by rewrite <- app_assoc.
Qed.

Lemma fill_spec {A} (f : nat → A) (a : list A) :
  fill (length a) f a = f <$> seq 0 (length a).
Proof. rewrite fill_prefix by lia. by rewrite drop_all, app_nil_r. Qed.

Lemma fillM_prefix {A} (f : nat → option A) (g : nat → A) (a : list A) (k : nat) :
  (k ≤ length a)%nat → (∀ j, (j < k)%nat → f j = Some (g j)) →
  fillM k f a = Some ((g <$> seq 0 k) ++ drop k a).
Proof.
  unfold fillM. induction k as [|k IH]; intros Hk Hf; [done|].
  rewrite seq_S, foldl_app, IH by (lia || (intros; apply Hf; lia)). simpl.
  rewrite Hf by lia. simpl. f_equal.
  destruct (lookup_lt_is_Some_2 a k) as [y Hy]; [lia|].
  rewrite insert_app_r_alt by (rewrite length_fmap, length_seq; lia).
  rewrite length_fmap, length_seq, Nat.sub_diag.
  rewrite (drop_S _ _ _ Hy), fmap_app. simpl.
  by rewrite <- app_assoc.
Qed.

Lemma fillM_replicate {A} (f : nat → option A) (g : nat → A) (n : nat) (x : A) :
  (∀ j, (j < n)%nat → f j = Some (g j)) →
  fillM n f (replicate n x) = Some (g <$> seq 0 n).
Proof.
  intros Hf. rewrite (fillM_prefix f g) by (rewrite ?length_replicate; done).
  rewrite drop_ge by (rewrite length_replicate; lia). by rewrite app_nil_r.
Qed.

Lemma fill_replicate {A} (f : nat → A) (n : nat) (x : A) :
  fill n f (replicate n x) = f <$> seq 0 n.
Proof.
  pose proof (fill_spec f (replicate n x)) as H.
  by rewrite length_replicate in H.
Qed.

(** ** Array reads and writes *)

Section Arrays.
Implicit Types (v o : Point.vec) (k j : dim_t) (x y : coord_t).

Lemma get_is_Some v k : (N.to_nat k < length v)%nat → ∃ x, Point.get v k = Some x.
Proof. intros H. by apply lookup_lt_is_Some_2. Qed.

Lemma get_set_eq v k x :
  (N.to_nat k < length v)%nat → Point.get (Point.set v k x) k = Some x.
Proof. intros H. by apply list_lookup_insert_eq. Qed.

Lemma get_set_ne v k j x : k ≠ j → Point.get (Point.set v k x) j = Point.get v j.
Proof. intros H. apply list_lookup_insert_ne. lia. Qed.

Lemma length_set v k x : length (Point.set v k x) = length v.
Proof. apply length_insert. Qed.

Lemma set_set_eq v k x y : Point.set (Point.set v k x) k y = Point.set v k y.
Proof. apply list_insert_insert_eq. Qed.

Lemma set_set_ne v k j x y :
  k ≠ j → Point.set (Point.set v k x) j y = Point.set (Point.set v j y) k x.
Proof. intros H. apply list_insert_insert_ne. lia. Qed.

Lemma set_id v k x : Point.get v k = Some x → Point.set v k x = v.
Proof. apply list_insert_id. Qed.

(** Writing a pair of cells over a written pair leaves the last values. *)
Lemma set_pair_over v k j x y x' y' :
  k ≠ j →
  Point.set (Point.set (Point.set (Point.set v k x) j y) k x') j y'
  = Point.set (Point.set v k x') j y'.
Proof.
  intros H.
  rewrite (set_set_ne (Point.set v k x) j k) by done.
  by rewrite !set_set_eq.
Qed.

Lemma set_pair_id v k j x y :
  k ≠ j → Point.get v k = Some x → Point.get v j = Some y →
  Point.set (Point.set v k x) j y = v.
Proof.
  intros H Hk Hj. rewrite (set_id v k x) by done. by apply set_id.
Qed.

Lemma in_grid_get DIMS v k x : in_grid DIMS v → Point.get v k = Some x → (x < 3)%N.
Proof.
  intros [_ Hall] Hget. rewrite Forall_lookup in Hall. by eapply Hall.
Qed.

Lemma in_grid_set DIMS v k x : in_grid DIMS v → (x < 3)%N → in_grid DIMS (Point.set v k x).
Proof.
  intros [Hlen Hall] Hx. split; [by rewrite length_set|by apply Forall_insert].
Qed.

End Arrays.

(** ** [Point::rotate] is the quarter turn [turn] *)

Lemma small_coord (x : N) : (x < 3)%N → x = 0%N ∨ x = 1%N ∨ x = 2%N.
Proof. lia. Qed.

Section QuarterTurn.
Context (DIMS : dim_t) (r : Rotation.t) (Hr : valid_rotation DIMS r).

Local Abbreviation ax := (Rotation.axis r).
Local Abbreviation fr := (Rotation.from r).
Local Abbreviation tt := (Rotation.to r).
Local Abbreviation sd := (Side_value (Rotation.side r)).

Lemma rotate_asserts :
  negb (ax =? fr)%N && negb (fr =? tt)%N && negb (tt =? ax)%N = true ∧
  (ax <? DIMS)%N && (fr <? DIMS)%N && (tt <? DIMS)%N = true.
Proof.
  destruct Hr as (H1 & H2 & H3 & H4 & H5 & H6).
  rewrite !andb_true_iff, !negb_true_iff, !N.eqb_neq, !N.ltb_lt. done.
Qed.

Lemma rotate_turn p : wf_point DIMS p → Point.rotate DIMS r p = Some (turn r p).
Proof.
  destruct rotate_asserts as [Ha1 Ha2].
  destruct Hr as (H1 & H2 & H3 & H4 & H5 & H6).
  destruct p as [oc v o]. intros (Hoc & Hv & Ho). simpl in *.
  pose proof Hv as [Hlen Hall].
  unfold Point.rotate, turn, turn_coords, turn_orientation. simpl.
  rewrite Ha1, Ha2. simpl.
  destruct (get_is_Some v ax) as [a Ea]; [lia|].
  destruct (get_is_Some v fr) as [x Ex]; [lia|].
  destruct (get_is_Some v tt) as [y Ey]; [lia|].
  destruct (get_is_Some o fr) as [ox Eox]; [lia|].
  destruct (get_is_Some o tt) as [oy Eoy]; [lia|].
  rewrite Ea, Ex, Ey, Eox, Eoy. simpl.
  destruct (a =? sd)%N; simpl; [|done].
  destruct (small_coord x) as [-> | [-> | ->]]; [by eapply in_grid_get|..];
    (destruct (small_coord y) as [-> | [-> | ->]]; [by eapply in_grid_get|..]);
    try reflexivity.
  change (2 - 1)%N with 1%N. by rewrite (set_pair_id v fr tt 1%N 1%N).
Qed.

Lemma rotate_off_slice p a :
  Point.get (Point.coords p) ax = Some a → a ≠ sd → Point.rotate DIMS r p = Some p.
Proof.
  destruct rotate_asserts as [Ha1 Ha2]. intros Ea Hne.
  unfold Point.rotate. rewrite Ha1, Ha2. simpl.
  rewrite Ea. simpl. apply N.eqb_neq in Hne. by rewrite Hne.
Qed.

(** *** The turn on coordinate vectors *)

Lemma turn_coords_off v a :
  Point.get v ax = Some a → a ≠ sd → turn_coords r v = v.
Proof.
  intros Ea Hne. unfold turn_coords. rewrite Ea.
  apply N.eqb_neq in Hne. rewrite Hne. by repeat case_match.
Qed.

Lemma turn_coords_on v x y :
  in_grid DIMS v → Point.get v ax = Some sd →
  turn_coords r (Point.set (Point.set v fr x) tt y)
  = Point.set (Point.set v fr (2 - y)%N) tt x.
Proof.
  destruct Hr as (H1 & H2 & H3 & H4 & H5 & H6).
  intros [Hlen _] Ea.
  assert (E1 : Point.get (Point.set (Point.set v fr x) tt y) ax = Some sd)
    by (by rewrite !get_set_ne by done).
  assert (E2 : Point.get (Point.set (Point.set v fr x) tt y) fr = Some x)
    by (rewrite get_set_ne by done; apply get_set_eq; lia).
  assert (E3 : Point.get (Point.set (Point.set v fr x) tt y) tt = Some y)
    by (apply get_set_eq; rewrite length_set; lia).
  unfold turn_coords. rewrite E1, E2, E3, N.eqb_refl.
  by apply set_pair_over.
Qed.

Lemma turn_coords_axis v : in_grid DIMS v → Point.get (turn_coords r v) ax = Point.get v ax.
Proof.
  destruct Hr as (H1 & H2 & H3 & H4 & H5 & H6).
  intros Hv. unfold turn_coords.
  repeat case_match; try done. by rewrite !get_set_ne.
Qed.

Lemma turn_coords_grid v : in_grid DIMS v → in_grid DIMS (turn_coords r v).
Proof.
  intros Hv. unfold turn_coords.
  repeat case_match; try done.
  apply in_grid_set; [apply in_grid_set; [done|lia]|by eapply in_grid_get].
Qed.

Lemma turn_coords_4 v :
  in_grid DIMS v → turn_coords r (turn_coords r (turn_coords r (turn_coords r v))) = v.
Proof.
  destruct Hr as (H1 & H2 & H3 & H4 & H5 & H6).
  intros Hv. pose proof Hv as [Hlen Hall].
  destruct (get_is_Some v ax) as [a Ea]; [lia|].
  destruct (decide (a = sd)) as [->|Hne]; [|by rewrite !(turn_coords_off v a)].
  destruct (get_is_Some v fr) as [x Ex]; [lia|].
  destruct (get_is_Some v tt) as [y Ey]; [lia|].
  pose proof (in_grid_get _ _ _ _ Hv Ex). pose proof (in_grid_get _ _ _ _ Hv Ey).
  rewrite <- (set_pair_id v fr tt x y) at 1 by done.
  rewrite !turn_coords_on by done.
  replace (2 - (2 - x))%N with x by lia. replace (2 - (2 - y))%N with y by lia.
  by apply set_pair_id.
Qed.

(** *** The turn on orientations *)

Lemma turn_orientation_off v o a :
  Point.get v ax = Some a → a ≠ sd → turn_orientation r v o = o.
Proof.
  intros Ea Hne. unfold turn_orientation. rewrite Ea.
  apply N.eqb_neq in Hne. rewrite Hne. by repeat case_match.
Qed.

Lemma turn_orientation_on v o x y :
  length o = N.to_nat DIMS → Point.get v ax = Some sd →
  turn_orientation r v (Point.set (Point.set o fr x) tt y)
  = Point.set (Point.set o fr y) tt x.
Proof.
  destruct Hr as (H1 & H2 & H3 & H4 & H5 & H6).
  intros Hlen Ea.
  assert (E2 : Point.get (Point.set (Point.set o fr x) tt y) fr = Some x)
    by (rewrite get_set_ne by done; apply get_set_eq; lia).
  assert (E3 : Point.get (Point.set (Point.set o fr x) tt y) tt = Some y)
    by (apply get_set_eq; rewrite length_set; lia).
  unfold turn_orientation. rewrite Ea, E2, E3, N.eqb_refl.
  by apply set_pair_over.
Qed.

Lemma turn_orientation_length v o :
  length (turn_orientation r v o) = length o.
Proof.
  unfold turn_orientation. repeat case_match; try done. by rewrite !length_set.
Qed.

(** *** The turn on points *)

Lemma turn_wf p : wf_point DIMS p → wf_point DIMS (turn r p).
Proof.
  intros (Hoc & Hv & Ho). repeat split; simpl; try done.
  - by apply turn_coords_grid.
  - by apply turn_coords_grid.
  - by rewrite turn_orientation_length.
Qed.

Lemma turn_4 p : wf_point DIMS p → turn r (turn r (turn r (turn r p))) = p.
Proof.
  destruct Hr as (H1 & H2 & H3 & H4 & H5 & H6).
  destruct p as [oc v o]. intros (Hoc & Hv & Ho). simpl in *.
  pose proof Hv as [Hlen Hall].
  unfold turn at 1 2 3 4. simpl. f_equal; [by apply turn_coords_4|].
  destruct (get_is_Some v ax) as [a Ea]; [lia|].
  destruct (decide (a = sd)) as [->|Hne].
  - destruct (get_is_Some o fr) as [x Ex]; [lia|].
    destruct (get_is_Some o tt) as [y Ey]; [lia|].
    rewrite <- (set_pair_id o fr tt x y) at 1 by done.
    rewrite turn_orientation_on by done.
    rewrite turn_orientation_on by (by rewrite ?turn_coords_axis by eauto using turn_coords_grid).
    rewrite turn_orientation_on by (by rewrite ?turn_coords_axis by eauto using turn_coords_grid).
    rewrite turn_orientation_on by (by rewrite ?turn_coords_axis by eauto using turn_coords_grid).
    by apply set_pair_id.
  - rewrite !(turn_coords_off v a) by done.
    by rewrite !(turn_orientation_off v _ a).
Qed.

End QuarterTurn.

(** ** [Cube::rotate] turns every point *)

Lemma mapM_all_Some {A B} (f : A → option B) (g : A → B) (l : list A) :
  Forall (λ x, f x = Some (g x)) l → mapM f l = Some (g <$> l).
Proof.
  intros H. apply mapM_Some_2. induction H; simpl; constructor; done.
Qed.

Section CubeTurn.
Context (DIMS : dim_t) (r : Rotation.t) (Hr : valid_rotation DIMS r).

Lemma cube_rotate_turn c :
  wf_cube DIMS c → Cube.rotate DIMS r c = Some (Cube.mk (turn r <$> Cube.points c)).
Proof.
  intros Hc. unfold Cube.rotate.
  rewrite (mapM_all_Some _ (turn r)); [done|].
  eapply Forall_impl; [|exact Hc]. intros p Hp. by apply rotate_turn.
Qed.

Lemma cube_turn_wf c : wf_cube DIMS c → wf_cube DIMS (Cube.mk (turn r <$> Cube.points c)).
Proof.
  intros Hc. unfold wf_cube. simpl. apply Forall_fmap.
  eapply Forall_impl; [|exact Hc]. intros p Hp. by apply turn_wf.
Qed.

Lemma cube_rotate_wf c c' :
  wf_cube DIMS c → Cube.rotate DIMS r c = Some c' → wf_cube DIMS c'.
Proof.
  intros Hc. rewrite cube_rotate_turn by done. intros [= <-]. by apply cube_turn_wf.
Qed.

Lemma cube_rotate_4 c : wf_cube DIMS c → Cube.rotate_n DIMS r 4 c = Some c.
Proof.
  intros Hc. simpl.
  pose proof (cube_turn_wf _ Hc) as Hc1.
  pose proof (cube_turn_wf _ Hc1) as Hc2.
  pose proof (cube_turn_wf _ Hc2) as Hc3.
  rewrite cube_rotate_turn by done. simpl.
  rewrite cube_rotate_turn by done. simpl.
  rewrite cube_rotate_turn by done. simpl.
  rewrite cube_rotate_turn by done. simpl.
  destruct c as [ps]. simpl in *. do 2 f_equal.
  rewrite <- !list_fmap_compose.
  rewrite <- (list_fmap_id ps) at 2.
  apply Forall_fmap_ext. eapply Forall_impl; [|exact Hc].
  intros p Hp. simpl. by apply (turn_4 DIMS).
Qed.

Lemma cube_rotate_undo c c' :
  wf_cube DIMS c → Cube.rotate DIMS r c = Some c' →
  Cube.undo_rotation DIMS r c' = Some c.
Proof.
  intros Hc Hrot. pose proof (cube_rotate_4 c Hc) as H4.
  simpl in H4. rewrite Hrot in H4. exact H4.
Qed.

End CubeTurn.

(** ** The rotation of one point *)

Lemma position_table_keys : NoDup (position_table.*1).
Proof. apply (bool_decide_unpack _); vm_compute; exact I. Qed.

(** C1. For a valid rotation [r] and a point on the slice of [r]
    ([coords[r.axis] == r.side]), [Point::rotate] returns, and the pair
    [(coords[r.from], coords[r.to])] goes from an entry's key to that
    entry's value in the nine-entry table of the specification, whose
    keys are pairwise different. *)
Theorem point_rotate_follows_table (DIMS : dim_t) (r : Rotation.t) (p : Point.t) :
  valid_rotation DIMS r →
  wf_point DIMS p →
  Point.get (Point.coords p) (Rotation.axis r) = Some (Side_value (Rotation.side r)) →
  ∃ p' old new,
    Point.rotate DIMS r p = Some p' ∧
    (old, new) ∈ position_table ∧ NoDup (position_table.*1) ∧
    Point.get (Point.coords p) (Rotation.from r) = Some old.1 ∧
    Point.get (Point.coords p) (Rotation.to r) = Some old.2 ∧
    Point.get (Point.coords p') (Rotation.from r) = Some new.1 ∧
    Point.get (Point.coords p') (Rotation.to r) = Some new.2.
Proof.
  intros Hr Hp Ea. pose proof Hp as (Hoc & Hv & Ho). pose proof Hv as [Hlen Hall].
  pose proof Hr as (H1 & H2 & H3 & H4 & H5 & H6).
  destruct (get_is_Some (Point.coords p) (Rotation.from r)) as [x Ex]; [lia|].
  destruct (get_is_Some (Point.coords p) (Rotation.to r)) as [y Ey]; [lia|].
  exists (turn r p), (x, y), ((2 - y)%N, x).
  assert (Hturn : Point.coords (turn r p)
                  = Point.set (Point.set (Point.coords p) (Rotation.from r) (2 - y)%N)
                              (Rotation.to r) x).
  { simpl. unfold turn_coords. by rewrite Ea, Ex, Ey, N.eqb_refl. }
  split; [by apply rotate_turn|].
  split.
  { destruct (small_coord x) as [-> | [-> | ->]]; [by eapply in_grid_get|..];
      (destruct (small_coord y) as [-> | [-> | ->]]; [by eapply in_grid_get|..]);
      apply list_elem_of_In; repeat (first [left; reflexivity | right]). }
  split; [apply position_table_keys|].
  rewrite Hturn. simpl. repeat split; try done.
  - rewrite get_set_ne by done. apply get_set_eq. lia.
  - apply get_set_eq. rewrite length_set. lia.
Qed.

Lemma point_rotate_follows_table_witness :
  ∃ p' old new,
    Point.rotate 3%N sample_rotation sample_point = Some p' ∧
    (old, new) ∈ position_table ∧ NoDup (position_table.*1) ∧
    Point.get (Point.coords sample_point) 2%N = Some old.1 ∧
    Point.get (Point.coords sample_point) 0%N = Some old.2 ∧
    Point.get (Point.coords p') 2%N = Some new.1 ∧
    Point.get (Point.coords p') 0%N = Some new.2.
Proof.
  apply (point_rotate_follows_table 3%N sample_rotation sample_point).
  - apply (bool_decide_unpack _); vm_compute; exact I.
  - apply (bool_decide_unpack _); vm_compute; exact I.
  - reflexivity.
Defined.

(** C7. For a valid rotation [r]: a point off the slice of [r]
    ([coords[r.axis] != r.side]) comes back from [Point::rotate] with
    [coords], [orientation] and [original_coords] as they were; and for
    every point, [Point::rotate] returns and [coords[r.axis]] is what it
    was. *)
Theorem point_rotate_frame (DIMS : dim_t) (r : Rotation.t) (p : Point.t) :
  valid_rotation DIMS r →
  wf_point DIMS p →
  (Point.get (Point.coords p) (Rotation.axis r) ≠ Some (Side_value (Rotation.side r)) →
   Point.rotate DIMS r p = Some p) ∧
  ∃ p', Point.rotate DIMS r p = Some p' ∧
        Point.get (Point.coords p') (Rotation.axis r)
        = Point.get (Point.coords p) (Rotation.axis r).
Proof.
  intros Hr Hp. pose proof Hp as (Hoc & Hv & Ho). pose proof Hv as [Hlen Hall].
  pose proof Hr as (H1 & H2 & H3 & H4 & H5 & H6).
  split.
  - intros Hne.
    destruct (get_is_Some (Point.coords p) (Rotation.axis r)) as [a Ea]; [lia|].
    apply (rotate_off_slice DIMS r Hr p a Ea). intros ->. by apply Hne.
  - exists (turn r p). split; [by apply rotate_turn|].
    simpl. by eapply turn_coords_axis.
Qed.

Lemma point_rotate_frame_witness :
  (Point.get (Point.coords sample_point_off) 1%N ≠ Some 2%N →
   Point.rotate 3%N sample_rotation sample_point_off = Some sample_point_off) ∧
  ∃ p', Point.rotate 3%N sample_rotation sample_point_off = Some p' ∧
        Point.get (Point.coords p') 1%N = Point.get (Point.coords sample_point_off) 1%N.
Proof.
  apply (point_rotate_frame 3%N sample_rotation sample_point_off).
  - apply (bool_decide_unpack _); vm_compute; exact I.
  - apply (bool_decide_unpack _); vm_compute; exact I.
Defined.

(** ** Four quarter turns *)

(** C2. For a valid rotation [r] and a cube whose points lie in the
    grid, four applications of [Cube::rotate(r)] return, and give back
    the cube as it was: every point has its [coords] and [orientation]
    (and [original_coords]) again. Hence [undo_rotation(r)] after
    [rotate(r)] is the identity. *)
Theorem cube_rotate_order_4 (DIMS : dim_t) (r : Rotation.t) (c : Cube.t) :
  valid_rotation DIMS r →
  wf_cube DIMS c →
  Cube.rotate_n DIMS r 4 c = Some c ∧
  (Cube.rotate DIMS r c ≫= Cube.undo_rotation DIMS r) = Some c.
Proof.
  intros Hr Hc. split; [by apply cube_rotate_4|].
  rewrite cube_rotate_turn by done. simpl.
  eapply cube_rotate_undo; [done..|]. by apply cube_rotate_turn.
Qed.

Lemma cube_rotate_order_4_witness :
  Cube.rotate_n 3%N sample_rotation 4 sample_cube = Some sample_cube ∧
  (Cube.rotate 3%N sample_rotation sample_cube ≫= Cube.undo_rotation 3%N sample_rotation)
  = Some sample_cube.
Proof.
  apply (cube_rotate_order_4 3%N sample_rotation sample_cube).
  - apply (bool_decide_unpack _); vm_compute; exact I.
  - apply (bool_decide_unpack _); vm_compute; exact I.
Defined.

(** ** Base 3 digits *)

Lemma digits_S i n : digits i (S n) = Z.to_N (i mod 3) :: digits (i / 3) n.
Proof.
  unfold digits. simpl. f_equal.
  - unfold digit. by rewrite Z.pow_0_r, Z.div_1_r.
  - rewrite <- fmap_S_seq, <- list_fmap_compose. apply list_fmap_ext.
    intros _ k _. unfold digit. simpl. do 2 f_equal.
    rewrite Nat2Z.inj_succ, Z.pow_succ_r by lia.
    rewrite Z.div_div by (try apply pow3_pos; lia). done.
Qed.

Lemma length_digits i n : length (digits i n) = n.
Proof. unfold digits. by rewrite length_fmap, length_seq. Qed.

Lemma digits_small i n : Forall (λ x, (x < 3)%N) (digits i n).
Proof.
  unfold digits. apply Forall_fmap, Forall_forall. intros k _. simpl.
  unfold digit. pose proof (Z.mod_pos_bound (i / 3 ^ Z.of_nat k) 3). lia.
Qed.

Lemma digits_in_grid DIMS i : in_grid DIMS (digits i (N.to_nat DIMS)).
Proof. split; [apply length_digits|apply digits_small]. Qed.


Lemma encode_from_S d v : encode_from (S d) v = 3 * encode_from d v.
Proof.
  revert d. induction v as [|x v IH]; intros d; simpl; [lia|].
  rewrite IH. rewrite (Nat2Z.inj_succ d), Z.pow_succ_r by lia. lia.
Qed.

Lemma encode_cons x v : encode (x :: v) = Z.of_N x + 3 * encode v.
Proof. unfold encode. simpl. rewrite encode_from_S. lia. Qed.

Lemma encode_digits i n : encode (digits i n) = i mod 3 ^ Z.of_nat n.
Proof.
  revert i. induction n as [|n IH]; intros i.
  - simpl. by rewrite Z.mod_1_r.
  - rewrite digits_S, encode_cons, IH.
    rewrite Nat2Z.inj_succ, Z.pow_succ_r by lia.
    rewrite Z.rem_mul_r by (try apply pow3_pos; lia).
    pose proof (Z.mod_pos_bound i 3). lia.
Qed.

Lemma digits_encode v :
  Forall (λ x, (x < 3)%N) v → digits (encode v) (length v) = v.
Proof.
  induction 1 as [|x v Hx Hv IH]; [done|].
  simpl. rewrite digits_S, encode_cons. f_equal.
  - replace ((Z.of_N x + 3 * encode v) mod 3) with (Z.of_N x);
      [lia | Z.to_euclidean_division_equations; lia].
  - replace ((Z.of_N x + 3 * encode v) / 3) with (encode v);
      [done | Z.to_euclidean_division_equations; lia].
Qed.

Lemma encode_bound v :
  Forall (λ x, (x < 3)%N) v → 0 ≤ encode v < 3 ^ Z.of_nat (length v).
Proof.
  induction 1 as [|x v Hx Hv IH]; [done|].
  rewrite encode_cons. simpl length. rewrite Nat2Z.inj_succ, Z.pow_succ_r by lia. lia.
Qed.

Lemma digits_mod i n : digits (i mod 3 ^ Z.of_nat n) n = digits i n.
Proof.
  rewrite <- encode_digits.
  rewrite <- (length_digits i n) at 2. apply digits_encode, digits_small.
Qed.

(** ** [Point::from_index] and [Cube()] *)

Lemma iota_seq DIMS : (DIMS ≤ 256)%N → Point.iota DIMS = N.of_nat <$> seq 0 (N.to_nat DIMS).
Proof.
  intros H. unfold Point.iota. rewrite fill_replicate.
  apply Forall_fmap_ext, Forall_forall. intros k Hk. apply in_seq in Hk.
  rewrite to_uint8_small by lia. lia.
Qed.

Lemma is_sorted_seq j n : Point.is_sorted (N.of_nat <$> seq j n) = true.
Proof.
  revert j. induction n as [|n IH]; intros j; [done|].
  specialize (IH (S j)). simpl in *. destruct n as [|n]; [done|].
  simpl in *. rewrite IH, andb_true_r. apply N.leb_le. lia.
Qed.

Lemma to_size_t_pow3 e : 0 ≤ e ≤ 31 → to_size_t (3 ^ e) = 3 ^ e.
Proof.
  intros He. apply to_size_t_small. pose proof (pow3_le_31 e He).
  assert (3 ^ 31 < 2 ^ 64) by (vm_compute; reflexivity). lia.
Qed.

Lemma from_index_home DIMS i :
  (DIMS ≤ 32)%N → Point.from_index DIMS i = Some (home DIMS i).
Proof.
  intros H. unfold Point.from_index, home.
  rewrite (fillM_replicate _ (digit i)); [done|].
  intros j Hj. rewrite ipow_3_exact, to_size_t_pow3 by lia.
  unfold div_size_t. pose proof (pow3_pos (Z.of_nat j)).
  destruct (Z.eqb_spec (3 ^ Z.of_nat j) 0) as [E|_]; [lia|]. simpl.
  pose proof (Z.mod_pos_bound (i / 3 ^ Z.of_nat j) 3).
  by rewrite to_uint8_small by lia.
Qed.

Lemma num_points DIMS :
  (DIMS ≤ MAX_DIMS)%N → to_size_t (Cube.NUM_POINTS DIMS) = 3 ^ Z.of_N DIMS.
Proof.
  unfold MAX_DIMS, Cube.NUM_POINTS. intros H.
  by rewrite ipow_3_exact, to_size_t_pow3 by lia.
Qed.

Lemma cube_new_homes DIMS :
  (DIMS ≤ MAX_DIMS)%N →
  Cube.new DIMS
  = Some (Cube.mk ((λ idx, home DIMS (Z.of_nat idx)) <$> seq 0 (Z.to_nat (3 ^ Z.of_N DIMS)))).
Proof.
  intros H. unfold Cube.new. rewrite num_points by done.
  rewrite (fillM_replicate _ (λ idx, home DIMS (Z.of_nat idx))); [done|].
  intros j _. apply from_index_home. unfold MAX_DIMS in H. lia.
Qed.

(** ** Index decoding *)




(** C10. [Point::from_index] has no range check: for [DIMS] up to
    [MAX_DIMS] and every index [i >= 3^DIMS] it returns (no division
    traps), and what it returns is the point of [i mod 3^DIMS]. *)
Theorem from_index_wraps (DIMS : dim_t) (i : Z) :
  (DIMS ≤ MAX_DIMS)%N →
  3 ^ Z.of_N DIMS ≤ i →
  ∃ p, Point.from_index DIMS i = Some p ∧
       Point.from_index DIMS (i mod 3 ^ Z.of_N DIMS) = Some p.
Proof.
  unfold MAX_DIMS. intros HD Hi. exists (home DIMS i).
  rewrite !from_index_home by lia. split; [done|].
  unfold home. by rewrite <- (N_nat_Z DIMS), digits_mod.
Qed.

Lemma from_index_wraps_witness :
  ∃ p, Point.from_index 3%N 100 = Some p ∧
       Point.from_index 3%N (100 mod 3 ^ Z.of_N 3) = Some p.
Proof.
  apply (from_index_wraps 3%N 100).
  - unfold MAX_DIMS. lia.
  - simpl. lia.
Defined.

(** ** The constructed cube *)

Lemma dist_self v acc :
  foldl (λ acc ab, int32 (acc + Z.abs (Z.of_N ab.1 - Z.of_N ab.2))) acc (zip v v)
  = foldl (λ acc (_ : N * N), int32 acc) acc (zip v v).
Proof.
  revert acc. induction v as [|x v IH]; intros acc; [done|].
  simpl. rewrite Z.sub_diag, Z.add_0_r. apply IH.
Qed.

Lemma home_status DIMS i :
  (DIMS ≤ 256)%N →
  Point.is_in_original_position (home DIMS i) = true ∧
  Point.is_in_original_orientation (home DIMS i) = true ∧
  Point.incorrectness (home DIMS i) = 0.
Proof.
  intros HD.
  assert (Hsorted : Point.is_in_original_orientation (home DIMS i) = true).
  { unfold Point.is_in_original_orientation, home. simpl.
    rewrite iota_seq by done. apply is_sorted_seq. }
  split; [by apply bool_decide_eq_true_2|]. split; [done|].
  unfold Point.incorrectness. rewrite Hsorted.
  unfold Point.dist_from_original, home. simpl. rewrite dist_self.
  generalize (digits i (N.to_nat DIMS)). intros v.
  induction v as [|x v IH]; [done|]. simpl. exact IH.
Qed.

Lemma unsolvedness_zero (ps : list Point.t) :
  Forall (λ p, Point.incorrectness p = 0) ps → Cube.unsolvedness (Cube.mk ps) = 0.
Proof.
  unfold Cube.unsolvedness. simpl. induction 1 as [|p ps Hp _ IH]; [done|].
  simpl. rewrite Hp. exact IH.
Qed.

(** C8. For [3 <= DIMS <= MAX_DIMS] the constructor returns a cube of
    [3^DIMS] points with [is_solved() == true] and [unsolvedness() == 0]. *)
Theorem new_cube_is_solved (DIMS : dim_t) :
  (3 ≤ DIMS ≤ MAX_DIMS)%N →
  ∃ c, Cube.new DIMS = Some c ∧
       length (Cube.points c) = Z.to_nat (3 ^ Z.of_N DIMS) ∧
       Cube.is_solved DIMS c = true ∧
       Cube.unsolvedness c = 0.
Proof.
  intros [_ HD]. eexists. split; [by apply cube_new_homes|].
  assert (HD' : (DIMS ≤ 256)%N) by (unfold MAX_DIMS in HD; lia).
  split; [by simpl; rewrite length_fmap, length_seq|]. split.
  - unfold Cube.is_solved. simpl. apply forallb_forall. intros p Hp.
    apply in_map_iff in Hp as (idx & <- & _).
    destruct (home_status DIMS (Z.of_nat idx) HD') as (-> & -> & _). done.
  - apply unsolvedness_zero, Forall_fmap, Forall_forall. intros idx _.
    by apply home_status.
Qed.

Lemma new_cube_is_solved_witness :
  ∃ c, Cube.new 3%N = Some c ∧
       length (Cube.points c) = Z.to_nat (3 ^ Z.of_N 3) ∧
       Cube.is_solved 3%N c = true ∧
       Cube.unsolvedness c = 0.
Proof.
  apply (new_cube_is_solved 3%N). unfold MAX_DIMS. lia.
Defined.

(** C5, as the code has it. The constructor has no dimension check and
    no error to report: for every [1 <= DIMS <= MAX_DIMS], also [1] and
    [2], it returns a cube of [3^DIMS] points. ([Cube<0>] is no type:
    [Point<0>] initialises arrays of no element with [{0}].) *)
Theorem cube_new_total (DIMS : dim_t) :
  (1 ≤ DIMS ≤ MAX_DIMS)%N →
  ∃ c, Cube.new DIMS = Some c ∧
       length (Cube.points c) = Z.to_nat (3 ^ Z.of_N DIMS).
Proof.
  intros [_ HD]. eexists. split; [by apply cube_new_homes|].
  by simpl; rewrite length_fmap, length_seq.
Qed.

Lemma cube_new_total_witness :
  ∃ c, Cube.new 2%N = Some c ∧
       length (Cube.points c) = Z.to_nat (3 ^ Z.of_N 2).
Proof.
  apply (cube_new_total 2%N). unfold MAX_DIMS. lia.
Defined.

(** C5, as the specification has it, fails at [DIMS = 2]: the
    constructor returns a cube of nine points and no error. *)
Lemma cube_new_dims_2_returns :
  ¬ (∀ DIMS : dim_t, (DIMS < 3)%N → Cube.new DIMS = None) ∧
  (2 < 3)%N ∧
  (length ∘ Cube.points) <$> Cube.new 2%N = Some 9%nat.
Proof.
  split; [|split; [lia|reflexivity]].
  intros H. specialize (H 2%N ltac:(lia)). vm_compute in H. discriminate H.
Qed.

(** ** Rotations permute the grid *)

Lemma grid_listing DIMS :
  let cells := (λ idx, digits (Z.of_nat idx) (N.to_nat DIMS))
                 <$> seq 0 (Z.to_nat (3 ^ Z.of_N DIMS)) in
  NoDup cells ∧ ∀ v, v ∈ cells ↔ in_grid DIMS v.
Proof.
  simpl. pose proof (pow3_pos (Z.of_N DIMS) ltac:(lia)) as Hpos. split.
  - apply NoDup_fmap_2_strong; [|apply NoDup_seq].
    intros a b Ha Hb Hab. apply elem_of_seq in Ha, Hb.
    apply (f_equal encode) in Hab. rewrite !encode_digits, N_nat_Z in Hab.
    rewrite !Z.mod_small in Hab by lia. lia.
  - intros v. rewrite list_elem_of_fmap. split.
    + intros (idx & -> & _). apply digits_in_grid.
    + intros [Hlen Hall]. exists (Z.to_nat (encode v)).
      pose proof (encode_bound v Hall) as Hb. rewrite Hlen, N_nat_Z in Hb.
      split; [|apply elem_of_seq; lia].
      rewrite Z2Nat.id, <- Hlen by lia. symmetry. by apply digits_encode.
Qed.

Section GridTurn.
Context (DIMS : dim_t) (r : Rotation.t) (Hr : valid_rotation DIMS r).

Lemma turn_coords_inj u v :
  in_grid DIMS u → in_grid DIMS v → turn_coords r u = turn_coords r v → u = v.
Proof.
  intros Hu Hv Huv.
  rewrite <- (turn_coords_4 DIMS r Hr u Hu), <- (turn_coords_4 DIMS r Hr v Hv).
  by rewrite Huv.
Qed.

Lemma coords_turn (ps : list Point.t) :
  Point.coords <$> (turn r <$> ps) = turn_coords r <$> (Point.coords <$> ps).
Proof. by rewrite <- !list_fmap_compose. Qed.

Lemma original_coords_turn (ps : list Point.t) :
  Point.original_coords <$> (turn r <$> ps) = Point.original_coords <$> ps.
Proof. by rewrite <- !list_fmap_compose. Qed.

Lemma occupies_grid_turn c :
  occupies_grid DIMS c → occupies_grid DIMS (Cube.mk (turn r <$> Cube.points c)).
Proof.
  intros [Hnd Hmem]. unfold occupies_grid. simpl. rewrite coords_turn. split.
  - apply NoDup_fmap_2_strong; [|done].
    intros u v Hu Hv. apply turn_coords_inj; by apply Hmem.
  - intros v. rewrite list_elem_of_fmap. split.
    + intros (u & -> & Hu). apply (turn_coords_grid DIMS r), Hmem, Hu.
    + intros Hv. exists (turn_coords r (turn_coords r (turn_coords r v))).
      split; [by rewrite (turn_coords_4 DIMS r Hr)|].
      apply Hmem. by do 3 apply (turn_coords_grid DIMS r).
Qed.

Lemma turn_permutes c :
  occupies_grid DIMS c →
  Point.coords <$> (turn r <$> Cube.points c) ≡ₚ Point.coords <$> Cube.points c.
Proof.
  intros Hc. pose proof (occupies_grid_turn c Hc) as [Hnd' Hmem'].
  destruct Hc as [Hnd Hmem]. simpl in *.
  apply NoDup_Permutation; [done..|]. intros v. by rewrite Hmem, Hmem'.
Qed.

End GridTurn.

Lemma home_wf DIMS i : (DIMS ≤ 256)%N → wf_point DIMS (home DIMS i).
Proof.
  intros HD. unfold wf_point, home. simpl.
  split; [apply length_digits|]. split; [apply digits_in_grid|].
  rewrite iota_seq by done. by rewrite length_fmap, length_seq.
Qed.

(** What holds of every state a program gets to. *)
Lemma reachable_inv DIMS c :
  (DIMS ≤ MAX_DIMS)%N → reachable DIMS c →
  wf_cube DIMS c ∧ occupies_grid DIMS c ∧
  Point.original_coords <$> Cube.points c
  = (λ idx, digits (Z.of_nat idx) (N.to_nat DIMS)) <$> seq 0 (Z.to_nat (3 ^ Z.of_N DIMS)).
Proof.
  intros HD Hreach. induction Hreach as [c Hnew | r c c' Hreach IH Hr Hrot].
  - rewrite cube_new_homes in Hnew by done. injection Hnew as <-. simpl.
    unfold MAX_DIMS in HD. split; [|split].
    + apply Forall_fmap, Forall_forall. intros idx _. apply home_wf. lia.
    + unfold occupies_grid. simpl. rewrite <- list_fmap_compose. apply grid_listing.
    + by rewrite <- list_fmap_compose.
  - destruct IH as (Hwf & Hgrid & Horig).
    rewrite (cube_rotate_turn DIMS r Hr c Hwf) in Hrot. injection Hrot as <-.
    split; [by apply cube_turn_wf|]. split; [by apply occupies_grid_turn|].
    simpl. by rewrite original_coords_turn.
Qed.

(** C6. For [DIMS] up to [MAX_DIMS], a valid rotation [r] and a cube
    state [c] reached from the constructed cube by valid rotations: [c]
    has [3^DIMS] points, [Cube::rotate(r)] returns, the multiset of
    [coords] over all points is after it what it was before, and both
    before and after it is the multiset of [original_coords]. *)
Theorem cube_rotate_permutes_coords (DIMS : dim_t) (r : Rotation.t) (c : Cube.t) :
  (DIMS ≤ MAX_DIMS)%N →
  valid_rotation DIMS r →
  reachable DIMS c →
  length (Cube.points c) = Z.to_nat (3 ^ Z.of_N DIMS) ∧
  Point.coords <$> Cube.points c ≡ₚ Point.original_coords <$> Cube.points c ∧
  ∃ c', Cube.rotate DIMS r c = Some c' ∧
        Point.coords <$> Cube.points c' ≡ₚ Point.coords <$> Cube.points c ∧
        Point.coords <$> Cube.points c' ≡ₚ Point.original_coords <$> Cube.points c'.
Proof.
  intros HD Hr Hreach. split.
  { destruct (reachable_inv DIMS c HD Hreach) as (_ & _ & Horig).
    apply (f_equal length) in Horig. by rewrite !length_fmap, length_seq in Horig. }
  assert (Hhome : ∀ s, reachable DIMS s →
            Point.coords <$> Cube.points s ≡ₚ Point.original_coords <$> Cube.points s).
  { intros s Hs. destruct (reachable_inv DIMS s HD Hs) as (_ & [Hnd Hmem] & Horig).
    rewrite Horig. destruct (grid_listing DIMS) as [Hnd' Hmem'].
    apply NoDup_Permutation; [done..|]. intros v. by rewrite Hmem, Hmem'. }
  split; [by apply Hhome|].
  destruct (reachable_inv DIMS c HD Hreach) as (Hwf & Hgrid & _).
  exists (Cube.mk (turn r <$> Cube.points c)).
  pose proof (cube_rotate_turn DIMS r Hr c Hwf) as Hrot.
  split; [done|]. split; [by apply (turn_permutes DIMS)|].
  apply Hhome. by eapply reachable_rotate.
Qed.

Lemma cube_rotate_permutes_coords_witness :
  length (Cube.points sample_cube) = Z.to_nat (3 ^ Z.of_N 3) ∧
  Point.coords <$> Cube.points sample_cube
    ≡ₚ Point.original_coords <$> Cube.points sample_cube ∧
  ∃ c', Cube.rotate 3%N sample_rotation sample_cube = Some c' ∧
        Point.coords <$> Cube.points c' ≡ₚ Point.coords <$> Cube.points sample_cube ∧
        Point.coords <$> Cube.points c' ≡ₚ Point.original_coords <$> Cube.points c'.
Proof.
  apply (cube_rotate_permutes_coords 3%N sample_rotation sample_cube).
  - unfold MAX_DIMS. lia.
  - apply (bool_decide_unpack _); vm_compute; exact I.
  - apply reachable_new. reflexivity.
Defined.

(** ** Solved test and unsolvedness *)

Lemma dist_fold_bounds (u v : list N) (acc : Z) :
  Forall (λ x, (x < 3)%N) u → Forall (λ x, (x < 3)%N) v →
  0 ≤ acc → acc + 2 * Z.of_nat (length u) < 2 ^ 31 →
  let d := foldl (λ acc ab, int32 (acc + Z.abs (Z.of_N ab.1 - Z.of_N ab.2))) acc (zip u v) in
  acc ≤ d ≤ acc + 2 * Z.of_nat (length u) ∧
  (length u = length v → d = acc ↔ u = v).
Proof.
  intros Hu. revert v acc. induction Hu as [|a u Ha Hu IH]; intros v acc Hv Hacc Hfit.
  { simpl. split; [lia|]. intros Hlen. destruct v; [done|discriminate]. }
  destruct Hv as [|b v Hb Hv].
  { simpl. split; [lia|]. intros Hlen. discriminate. }
  simpl length in *. simpl zip. simpl foldl.
  rewrite int32_small by lia.
  specialize (IH v (acc + Z.abs (Z.of_N a - Z.of_N b)) Hv ltac:(lia) ltac:(lia)).
  simpl in IH. destruct IH as [Hbound Hiff]. split; [lia|].
  intros Hlen. injection Hlen as Hlen. specialize (Hiff Hlen). split.
  - intros Hd. assert (a = b) as -> by lia.
    f_equal. apply Hiff. lia.
  - intros [= -> ->]. rewrite Z.sub_diag in *. simpl in *.
    rewrite Z.add_0_r in *. by apply Hiff.
Qed.

Lemma incorrectness_bounds DIMS (p : Point.t) :
  (DIMS ≤ 256)%N →
  in_grid DIMS (Point.coords p) → in_grid DIMS (Point.original_coords p) →
  0 ≤ Point.incorrectness p ≤ 2 * Z.of_N DIMS + 10 ∧
  (Point.incorrectness p = 0 ↔
   Point.is_in_original_position p = true ∧ Point.is_in_original_orientation p = true).
Proof.
  intros HD [Hlen Hall] [Hlen' Hall'].
  destruct (dist_fold_bounds (Point.coords p) (Point.original_coords p) 0 Hall Hall')
    as [Hbound Hiff]; [lia|rewrite Hlen; change (2 ^ 31) with 2147483648; lia|].
  fold (Point.dist_from_original p) in Hbound, Hiff.
  rewrite Hlen, N_nat_Z in Hbound. specialize (Hiff ltac:(congruence)).
  unfold Point.incorrectness, Point.is_in_original_position.
  rewrite bool_decide_eq_true, <- Hiff.
  destruct (Point.is_in_original_orientation p).
  - change (int32 (0 * 10)) with 0.
    rewrite int32_small by (change (2 ^ 31) with 2147483648; lia). split; [lia|].
    split; [intros; split; [lia|done] | intros [? _]; lia].
  - change (int32 (1 * 10)) with 10.
    rewrite int32_small by (change (2 ^ 31) with 2147483648; lia). split; [lia|].
    split; [lia | intros [_ ?]; done].
Qed.

Lemma unsolvedness_fold_bounds (ps : list Point.t) (bound acc : Z) :
  Forall (λ p, 0 ≤ Point.incorrectness p ≤ bound) ps →
  0 ≤ acc → acc + bound * Z.of_nat (length ps) < 2 ^ 31 →
  let u := foldl (λ acc p, int32 (acc + Point.incorrectness p)) acc ps in
  acc ≤ u ∧ (u = acc ↔ Forall (λ p, Point.incorrectness p = 0) ps).
Proof.
  intros Hps. revert acc. induction Hps as [|p ps Hp Hps IH]; intros acc Hacc Hfit.
  { simpl. split; [lia|]. split; [constructor|done]. }
  simpl length in Hfit. simpl foldl.
  assert (0 ≤ bound * Z.of_nat (length ps)) by nia.
  rewrite int32_small by lia.
  specialize (IH (acc + Point.incorrectness p) ltac:(lia) ltac:(lia)).
  simpl in IH. destruct IH as [Hle Hiff]. split; [lia|]. split.
  - intros Hu. assert (Point.incorrectness p = 0) by lia.
    constructor; [done|]. apply Hiff. lia.
  - intros Hall. inversion Hall as [|? ? Hp0 Hall']; subst.
    rewrite Hp0, Z.add_0_r in *. by apply Hiff.
Qed.

Lemma int_sum_fits (DIMS : N) :
  (DIMS ≤ MAX_DIMS_INT_SUM)%N →
  (2 * Z.of_N DIMS + 10) * 3 ^ Z.of_N DIMS < 2 ^ 31.
Proof.
  unfold MAX_DIMS_INT_SUM. intros HD.
  assert (0 < 3 ^ Z.of_N DIMS ≤ 3 ^ 16)
    by (split; [apply pow3_pos; lia | apply Z.pow_le_mono_r; lia]).
  change (3 ^ 16) with 43046721 in *. change (2 ^ 31) with 2147483648. nia.
Qed.

Lemma reachable_rotate_all DIMS rs c c' :
  reachable DIMS c → Forall (valid_rotation DIMS) rs →
  rotate_all DIMS rs c = Some c' → reachable DIMS c'.
Proof.
  intros Hc Hrs. revert c Hc. induction Hrs as [|r rs Hr Hrs IH]; intros c Hc; simpl.
  - by intros [= <-].
  - destruct (Cube.rotate DIMS r c) as [c1|] eqn:E; [|done]. simpl.
    apply IH. by eapply reachable_rotate.
Qed.

(** C3, as the code has it. For [DIMS] up to [MAX_DIMS_INT_SUM] and
    every cube state reached from the constructed cube by valid
    rotations: [unsolvedness()] is not negative, and it is [0] exactly
    when [is_solved()] is true and, on top of that, every center point
    is in its original orientation. *)
Theorem unsolvedness_zero_iff (DIMS : dim_t) (c : Cube.t) :
  (DIMS ≤ MAX_DIMS_INT_SUM)%N →
  reachable DIMS c →
  0 ≤ Cube.unsolvedness c ∧
  (Cube.unsolvedness c = 0 ↔
   Cube.is_solved DIMS c = true ∧
   ∀ p, p ∈ Cube.points c → Point.is_center DIMS p = true →
        Point.is_in_original_orientation p = true).
Proof.
  intros HD Hreach. pose proof (int_sum_fits DIMS HD) as Hfit.
  unfold MAX_DIMS_INT_SUM in HD.
  destruct (reachable_inv DIMS c) as (Hwf & Hgrid & Horig);
    [unfold MAX_DIMS; lia|done|].
  destruct c as [ps]. simpl in *.
  assert (Hlen : length ps = Z.to_nat (3 ^ Z.of_N DIMS)).
  { apply (f_equal length) in Horig. by rewrite !length_fmap, length_seq in Horig. }
  assert (Hinc : Forall (λ p,
            0 ≤ Point.incorrectness p ≤ 2 * Z.of_N DIMS + 10 ∧
            (Point.incorrectness p = 0 ↔
             Point.is_in_original_position p = true ∧
             Point.is_in_original_orientation p = true)) ps).
  { apply Forall_forall. intros p Hp. apply (incorrectness_bounds DIMS); [lia|..].
    - unfold wf_cube in Hwf. simpl in Hwf.
      rewrite Forall_forall in Hwf. by destruct (Hwf p Hp) as (_ & ? & _).
    - apply grid_listing. rewrite <- Horig. apply list_elem_of_fmap.
      exists p. split; [done|]. by apply list_elem_of_In. }
  destruct (unsolvedness_fold_bounds ps (2 * Z.of_N DIMS + 10) 0) as [Hle Hzero].
  { eapply Forall_impl; [|exact Hinc]. by intros p [? _]. }
  { lia. }
  { rewrite Hlen, Z2Nat.id by (pose proof (pow3_pos (Z.of_N DIMS)); lia). lia. }
  fold (Cube.unsolvedness (Cube.mk ps)) in Hle, Hzero.
  split; [done|]. rewrite Hzero. unfold Cube.is_solved. simpl.
  rewrite forallb_forall. rewrite Forall_forall in Hinc. rewrite Forall_forall.
  split.
  - intros Hall. split.
    + intros p Hp. destruct (Hinc p Hp) as [_ Hiff].
      by destruct (proj1 Hiff (Hall p Hp)) as [-> ->].
    + intros p Hp _. apply list_elem_of_In in Hp. destruct (Hinc p Hp) as [_ Hiff].
      by destruct (proj1 Hiff (Hall p Hp)) as [_ ->].
  - intros [Hsolved Hcentres] p Hp. apply (Hinc p Hp).
    specialize (Hsolved p Hp). apply andb_prop in Hsolved as [Hpos Hor].
    split; [done|]. apply orb_prop in Hor as [Ho|Hc]; [done|].
    apply Hcentres; [by apply list_elem_of_In|done].
Qed.

Lemma unsolvedness_zero_iff_witness :
  0 ≤ Cube.unsolvedness sample_cube ∧
  (Cube.unsolvedness sample_cube = 0 ↔
   Cube.is_solved 3%N sample_cube = true ∧
   ∀ p, p ∈ Cube.points sample_cube → Point.is_center 3%N p = true →
        Point.is_in_original_orientation p = true).
Proof.
  apply (unsolvedness_zero_iff 3%N sample_cube).
  - unfold MAX_DIMS_INT_SUM. lia.
  - apply reachable_new. reflexivity.
Defined.

(** C3, as the specification has it, fails on the 3x3x3 cube: after the
    fourteen valid rotations of [twist_centres] the cube is solved and
    its unsolvedness is [20]. *)
Lemma solved_cube_with_unsolvedness_20 :
  ∃ c, reachable 3%N c ∧
       Cube.is_solved 3%N c = true ∧ Cube.unsolvedness c = 20 ∧
       ¬ (Cube.unsolvedness c = 0 ↔ Cube.is_solved 3%N c = true).
Proof.
  destruct (rotate_all 3%N twist_centres sample_cube) as [c|] eqn:E;
    [|vm_compute in E; discriminate E].
  exists c. split.
  - eapply reachable_rotate_all; [..|exact E].
    + apply reachable_new. reflexivity.
    + apply (bool_decide_unpack _); vm_compute; exact I.
  - vm_compute in E. injection E as <-.
    split; [vm_compute; reflexivity|]. split; [vm_compute; reflexivity|].
    intros [_ H]. specialize (H ltac:(vm_compute; reflexivity)).
    vm_compute in H. discriminate H.
Qed.

(** ** The solver loop *)

Lemma redraw_spec DIMS reject cur tape v tape' :
  Rotation.redraw DIMS reject cur tape = Some (v, tape') →
  DIMS ≠ 0%N → (cur < DIMS)%N →
  reject v = false ∧ (v < DIMS)%N.
Proof.
  revert cur. induction tape as [|x tape IH]; intros cur; simpl.
  - destruct (reject cur) eqn:E; [done|]. by intros [= <- <-].
  - destruct (reject cur) eqn:E.
    + intros H HD _. apply (IH _ H HD). by apply N.mod_lt.
    + by intros [= <- <-].
Qed.

Lemma random_valid DIMS tape r tape' :
  (DIMS < 256)%N →
  Rotation.random DIMS tape = Some (r, tape') → valid_rotation DIMS r.
Proof.
  intros HD. unfold Rotation.random, Rotation.rand.
  destruct tape as [|x0 tape]; [done|]. simpl.
  destruct (N.eqb_spec DIMS 0) as [->|Hne]; [done|]. simpl.
  destruct tape as [|x1 tape]; [done|]. simpl.
  destruct tape as [|x2 tape]; [done|]. simpl.
  destruct (Rotation.redraw _ _ _ tape) as [[fr tape1]|] eqn:Efr; [|done]. simpl.
  destruct tape1 as [|x3 tape1]; [done|]. simpl.
  destruct (Rotation.redraw _ _ _ tape1) as [[to tape2]|] eqn:Eto; [|done]. simpl.
  intros [= <- <-].
  pose proof (N.mod_lt x1 DIMS Hne) as Hax.
  apply redraw_spec in Efr as [Hfr1 Hfr2]; [|done|by apply N.mod_lt].
  apply redraw_spec in Eto as [Hto1 Hto2]; [|done|by apply N.mod_lt].
  apply N.eqb_neq in Hfr1. apply orb_false_elim in Hto1 as [Hto1 Hto3].
  apply N.eqb_neq in Hto1, Hto3.
  set (ax := (x1 mod DIMS)%N) in *. clearbody ax.
  unfold valid_rotation. simpl.
  rewrite !to_uint8_small, !N2Z.id by lia. repeat split; (done || lia).
Qed.

Lemma pop_back_push rs r : Cube.pop_back (rs ++ [r]) = rs.
Proof.
  unfold Cube.pop_back. rewrite length_app. simpl.
  replace (length rs + 1 - 1)%nat with (length rs) by lia.
  by rewrite take_app_length.
Qed.

Lemma solve_loop_unfold DIMS fuel s :
  Cube.solve_loop DIMS fuel s
  = if Cube.is_solved DIMS (Cube.cube s) then
      Some (Cube.mk_solver (Cube.cube s) (Cube.rotations s) (Cube.tape s)
              (Cube.out s ++ [Cube.print_solved_in (length (Cube.rotations s))]))
    else match fuel with
         | O => None
         | S fuel' => Cube.solve_body DIMS s ≫= Cube.solve_loop DIMS fuel'
         end.
Proof. by destruct fuel. Qed.

Lemma solve_loop_solved DIMS fuel s s' :
  Cube.solve_loop DIMS fuel s = Some s' → Cube.is_solved DIMS (Cube.cube s') = true.
Proof.
  revert s. induction fuel as [|fuel IH]; intros s; rewrite solve_loop_unfold.
  - destruct (Cube.is_solved DIMS (Cube.cube s)) eqn:E; [|done]. by intros [= <-].
  - destruct (Cube.is_solved DIMS (Cube.cube s)) eqn:E; [by intros [= <-]|].
    destruct (Cube.solve_body DIMS s) as [s1|]; [|done]. simpl. apply IH.
Qed.

(** C4. One pass of the loop of [Cube::solve], from a cube whose points
    lie in the grid, when [Rotation::random] returns [r] and the next
    [rand()] returns [x]: with [last] the unsolvedness before, [current]
    the unsolvedness after [rotate(r)] and [v = x % 100], which lies in
    [[0, 100)], the pass ends with [r] undone by [rotate_n(r, 3)] (the
    cube is what it was) and off the history exactly when [v < 90] in the
    case [current > last], and exactly when [v < 10] in the case
    [current <= last]; otherwise the rotated cube and the history with
    [r] stay. The loop runs passes while [is_solved()] is false and
    returns only with [is_solved()] true. The distribution of [rand()]
    is no part of the statement, which holds for every value it
    returns. *)
Theorem solve_pass_acceptance (DIMS : dim_t) (s : Cube.solver)
    (r : Rotation.t) (x : N) (tape1 tape2 : list N) :
  (DIMS < 256)%N →
  wf_cube DIMS (Cube.cube s) →
  Rotation.random DIMS (Cube.tape s) = Some (r, tape1) →
  Rotation.rand tape1 = Some (x, tape2) →
  ∃ c1,
    Cube.rotate DIMS r (Cube.cube s) = Some c1 ∧
    Cube.rotate_n DIMS r 3 c1 = Some (Cube.cube s) ∧
    let last := Cube.unsolvedness (Cube.cube s) in
    let current := Cube.unsolvedness c1 in
    let v := Z.of_N x `rem` 100 in
    0 ≤ v < 100 ∧
    Cube.solve_body DIMS s
    = Some (if (if current >? last then v <? 90 else v <? 10)
            then Cube.mk_solver (Cube.cube s) (Cube.rotations s) tape2
                   (Cube.out s ++ [Cube.print_unsolvedness last])
            else Cube.mk_solver c1 (Cube.rotations s ++ [r]) tape2
                   (Cube.out s ++ [Cube.print_unsolvedness current])) ∧
    (∀ fuel,
       Cube.solve_loop DIMS fuel s
       = if Cube.is_solved DIMS (Cube.cube s) then
           Some (Cube.mk_solver (Cube.cube s) (Cube.rotations s) (Cube.tape s)
                   (Cube.out s ++ [Cube.print_solved_in (length (Cube.rotations s))]))
         else match fuel with
              | O => None
              | S fuel' => Cube.solve_body DIMS s ≫= Cube.solve_loop DIMS fuel'
              end) ∧
    (∀ fuel s', Cube.solve_loop DIMS fuel s = Some s' →
                Cube.is_solved DIMS (Cube.cube s') = true).
Proof.
  intros HD Hwf Hrandom Hrand.
  pose proof (random_valid DIMS _ _ _ HD Hrandom) as Hr.
  exists (Cube.mk (turn r <$> Cube.points (Cube.cube s))).
  pose proof (cube_rotate_turn DIMS r Hr _ Hwf) as Hrot.
  pose proof (cube_rotate_undo DIMS r Hr _ _ Hwf Hrot) as Hundo.
  split; [done|]. split; [done|]. simpl.
  split; [Z.to_euclidean_division_equations; lia|].
  split; [|split; [intros; apply solve_loop_unfold | intros; by eapply solve_loop_solved]].
  unfold Cube.solve_body. rewrite Hrandom. simpl. rewrite Hrot. simpl.
  rewrite Hrand. simpl.
  destruct (_ >? _); destruct (_ <? _); simpl;
    rewrite ?Hundo; simpl; by rewrite ?pop_back_push.
Qed.

Lemma solve_pass_acceptance_witness :
  ∃ c1,
    Cube.rotate 3%N sample_rotation (Cube.cube sample_solver) = Some c1 ∧
    Cube.rotate_n 3%N sample_rotation 3 c1 = Some (Cube.cube sample_solver) ∧
    let last := Cube.unsolvedness (Cube.cube sample_solver) in
    let current := Cube.unsolvedness c1 in
    let v := Z.of_N 42 `rem` 100 in
    0 ≤ v < 100 ∧
    Cube.solve_body 3%N sample_solver
    = Some (if (if current >? last then v <? 90 else v <? 10)
            then Cube.mk_solver (Cube.cube sample_solver) (Cube.rotations sample_solver) []
                   (Cube.out sample_solver ++ [Cube.print_unsolvedness last])
            else Cube.mk_solver c1 (Cube.rotations sample_solver ++ [sample_rotation]) []
                   (Cube.out sample_solver ++ [Cube.print_unsolvedness current])) ∧
    (∀ fuel,
       Cube.solve_loop 3%N fuel sample_solver
       = if Cube.is_solved 3%N (Cube.cube sample_solver) then
           Some (Cube.mk_solver (Cube.cube sample_solver) (Cube.rotations sample_solver)
                   (Cube.tape sample_solver)
                   (Cube.out sample_solver
                    ++ [Cube.print_solved_in (length (Cube.rotations sample_solver))]))
         else match fuel with
              | O => None
              | S fuel' => Cube.solve_body 3%N sample_solver ≫= Cube.solve_loop 3%N fuel'
              end) ∧
    (∀ fuel s', Cube.solve_loop 3%N fuel sample_solver = Some s' →
                Cube.is_solved 3%N (Cube.cube s') = true).
Proof.
  apply (solve_pass_acceptance 3%N sample_solver sample_rotation 42%N [42%N] []).
  - lia.
  - apply (bool_decide_unpack _); vm_compute; exact I.
  - reflexivity.
  - reflexivity.
Defined.

(** * Further properties of the code *)

(** ** [ipow] on all its inputs *)

Lemma int64_mod z : int64 z mod 2 ^ 64 = z mod 2 ^ 64.
Proof.
  unfold int64, wrap_signed.
  change (2 ^ (64 - 1)) with 9223372036854775808.
  change (2 ^ 64) with 18446744073709551616.
  Z.to_euclidean_division_equations; lia.
Qed.

Lemma mul_mod_64 a b a' b' :
  a mod 2 ^ 64 = a' mod 2 ^ 64 → b mod 2 ^ 64 = b' mod 2 ^ 64 →
  (a * b) mod 2 ^ 64 = (a' * b') mod 2 ^ 64.
Proof.
  intros Ha Hb. rewrite Z.mul_mod, Ha, Hb, <- Z.mul_mod by done. done.
Qed.

Lemma pow_mod_64 a a' e :
  a mod 2 ^ 64 = a' mod 2 ^ 64 → (a ^ e) mod 2 ^ 64 = (a' ^ e) mod 2 ^ 64.
Proof.
  intros Ha. by rewrite <- (Z.mod_pow_l a), <- (Z.mod_pow_l a'), Ha.
Qed.

Lemma ipow_pos_mod e : ∀ base result,
  ipow_pos base e result mod 2 ^ 64 = (result * base ^ Z.pos e) mod 2 ^ 64.
Proof.
  induction e as [e IH|e IH|]; intros base result; simpl ipow_pos.
  - rewrite IH, (Pos2Z.inj_xI e).
    replace (base ^ (2 * Z.pos e + 1)) with (base * (base * base) ^ Z.pos e)
      by (rewrite Z.pow_mul_l, <- Z.pow_add_r, <- Z.pow_succ_r by lia; f_equal; lia).
    rewrite Z.mul_assoc.
    apply mul_mod_64; [apply int64_mod|].
    apply pow_mod_64, int64_mod.
  - rewrite IH, (Pos2Z.inj_xO e).
    replace (base ^ (2 * Z.pos e)) with ((base * base) ^ Z.pos e)
      by (rewrite Z.pow_mul_l, <- Z.pow_add_r by lia; f_equal; lia).
    apply mul_mod_64; [done|].
    apply pow_mod_64, int64_mod.
  - rewrite int64_mod. by rewrite Z.pow_1_r.
Qed.

(** X1. [ipow(base, exp, result)] is [result] when [exp < 1]; for
    [exp >= 0] its value, read as a [size_t], is [result * base^exp]
    modulo [2^64], whatever wrapped on the way. *)
Theorem ipow_value (base exp result : Z) :
  (exp < 1 → ipow base exp result = result) ∧
  (0 ≤ exp → to_size_t (ipow base exp result) = (result * base ^ exp) mod 2 ^ 64).
Proof.
  split.
  - destruct exp; [done|lia|done].
  - intros He. unfold to_size_t. destruct exp as [|e|e]; [|apply ipow_pos_mod|lia].
    simpl. by rewrite Z.mul_1_r.
Qed.

(** ** [Rotation::random] *)

Lemma redraw_suffix DIMS reject cur tape v tape' :
  Rotation.redraw DIMS reject cur tape = Some (v, tape') → tape' `suffix_of` tape.
Proof.
  revert cur. induction tape as [|x tape IH]; intros cur; simpl.
  - destruct (reject cur); [done|]. by intros [= _ <-].
  - destruct (reject cur).
    + intros H. apply suffix_cons_r. by eapply IH.
    + by intros [= _ <-].
Qed.

Lemma redraw_accept DIMS reject cur tape :
  reject cur = false → Rotation.redraw DIMS reject cur tape = Some (cur, tape).
Proof. intros H. destruct tape; simpl; by rewrite H. Qed.

Lemma random_reads DIMS tape r tape' :
  Rotation.random DIMS tape = Some (r, tape') →
  tape' `suffix_of` tape ∧ (length tape' + 4 ≤ length tape)%nat.
Proof.
  unfold Rotation.random, Rotation.rand.
  destruct tape as [|x0 tape]; [done|]. simpl.
  destruct (N.eqb_spec DIMS 0) as [->|Hne]; [done|]. simpl.
  destruct tape as [|x1 tape]; [done|]. simpl.
  destruct tape as [|x2 tape]; [done|]. simpl.
  destruct (Rotation.redraw _ _ _ tape) as [[fr tape1]|] eqn:Efr; [|done]. simpl.
  destruct tape1 as [|x3 tape1]; [done|]. simpl.
  destruct (Rotation.redraw _ _ _ tape1) as [[to tape2]|] eqn:Eto; [|done]. simpl.
  intros [= _ <-].
  apply redraw_suffix in Efr, Eto.
  assert (Hsuf : tape2 `suffix_of` tape).
  { etrans; [exact Eto|]. etrans; [|exact Efr]. by apply suffix_cons_r. }
  split; [by do 3 apply suffix_cons_r|].
  apply suffix_length in Efr, Eto. simpl in *. lia.
Qed.

Lemma random_side DIMS tape r tape' :
  Rotation.random DIMS tape = Some (r, tape') → valid_side r.
Proof.
  unfold Rotation.random, Rotation.rand.
  destruct tape as [|x0 tape]; [done|]. simpl.
  destruct (N.eqb_spec DIMS 0) as [->|Hne]; [done|]. simpl.
  destruct tape as [|x1 tape]; [done|]. simpl.
  destruct tape as [|x2 tape]; [done|]. simpl.
  destruct (Rotation.redraw _ _ _ tape) as [[fr tape1]|]; [|done]. simpl.
  destruct tape1 as [|x3 tape1]; [done|]. simpl.
  destruct (Rotation.redraw _ _ _ tape1) as [[to tape2]|]; [|done]. simpl.
  intros [= <- _]. unfold valid_side, FRONT, BACK. cbn [Rotation.side].
  pose proof (N.land_ones x0 1) as Hland. change (N.ones 1) with 1%N in Hland.
  pose proof (N.mod_upper_bound x0 (2 ^ 1) ltac:(done)) as Hbit.
  rewrite Hland. set (b := (x0 mod 2 ^ 1)%N) in *. clearbody b.
  change (2 ^ 1)%N with 2%N in Hbit. lia.
Qed.

(** X2. Whatever [Rotation::random<DIMS>] returns is a valid rotation:
    axis, from and to are pairwise different and below [DIMS] (so [DIMS]
    is at least 3) and the side is [FRONT] or [BACK]; and it has read at
    least four values of [rand()]. *)
Theorem random_returns_valid (DIMS : dim_t) (tape tape' : list N) (r : Rotation.t) :
  (DIMS < 256)%N →
  Rotation.random DIMS tape = Some (r, tape') →
  valid_rotation DIMS r ∧ valid_side r ∧ (3 ≤ DIMS)%N ∧
  tape' `suffix_of` tape ∧ (length tape' + 4 ≤ length tape)%nat.
Proof.
  intros HD Hrandom. pose proof (random_valid DIMS _ _ _ HD Hrandom) as Hr.
  split; [done|]. split; [by eapply random_side|].
  split; [unfold valid_rotation in Hr; lia|].
  by eapply random_reads.
Qed.

Lemma random_returns_valid_witness :
  valid_rotation 3%N sample_rotation ∧ valid_side sample_rotation ∧ (3 ≤ 3)%N ∧
  [42%N] `suffix_of` Cube.tape sample_solver ∧
  (length [42%N] + 4 ≤ length (Cube.tape sample_solver))%nat.
Proof.
  apply (random_returns_valid 3%N (Cube.tape sample_solver) [42%N] sample_rotation).
  - lia.
  - reflexivity.
Defined.

(** X3. For [DIMS < 3] there are no three different axes:
    [Rotation::random<DIMS>] returns on no sequence of [rand()] values
    (it divides by zero for [DIMS = 0] and redraws for ever otherwise). *)
Theorem random_needs_three_dims (DIMS : dim_t) (tape : list N) :
  (DIMS < 3)%N → Rotation.random DIMS tape = None.
Proof.
  intros HD. destruct (Rotation.random DIMS tape) as [[r tape']|] eqn:E; [|done].
  apply random_valid in E; [|lia]. unfold valid_rotation in E. lia.
Qed.

Lemma random_needs_three_dims_witness :
  Rotation.random 2%N [7; 0; 1; 0; 1; 0; 1; 1; 0]%N = None.
Proof. apply (random_needs_three_dims 2%N). lia. Defined.

(** X4. Every valid rotation whose side is [FRONT] or [BACK] is an
    outcome of [Rotation::random<DIMS>]: on four [rand()] values, the
    first with twice its low bit the side of [r], the others with the
    axis, from and to of [r] as remainders modulo [DIMS], it returns [r]
    and reads no fifth value. *)
Theorem random_reads_rotation (DIMS : dim_t) (r : Rotation.t)
    (xs xa xf xt : N) (rest : list N) :
  (DIMS < 256)%N →
  valid_rotation DIMS r →
  (N.land xs 1 * 2)%N = Rotation.side r →
  (xa mod DIMS = Rotation.axis r)%N →
  (xf mod DIMS = Rotation.from r)%N →
  (xt mod DIMS = Rotation.to r)%N →
  Rotation.random DIMS (xs :: xa :: xf :: xt :: rest) = Some (r, rest).
Proof.
  intros HD (H1 & H2 & H3 & H4 & H5 & H6) Hs Ha Hf Ht.
  unfold Rotation.random, Rotation.rand. cbn -[Rotation.redraw N.modulo to_uint8].
  destruct (N.eqb_spec DIMS 0) as [->|Hne]; [lia|].
  cbn -[Rotation.redraw N.modulo to_uint8].
  rewrite Ha, Hf, Hs.
  rewrite redraw_accept by (apply N.eqb_neq; congruence).
  cbn -[Rotation.redraw N.modulo to_uint8]. rewrite Ht.
  rewrite redraw_accept
    by (apply orb_false_intro; apply N.eqb_neq; congruence).
  cbn -[Rotation.redraw N.modulo to_uint8].
  rewrite !to_uint8_small, !N2Z.id by lia.
  destruct r as [a f t sd]; simpl in *; done.
Qed.

Lemma random_reads_rotation_witness :
  Rotation.random 3%N [1; 4; 5; 0; 42]%N = Some (sample_rotation, [42%N]).
Proof.
  apply (random_reads_rotation 3%N sample_rotation 1 4 5 0 [42%N]);
    [lia | apply (bool_decide_unpack _); vm_compute; exact I | reflexivity..].
Defined.

(** ** The status queries of a point *)

Lemma dist_fold_uint8 (u v : list N) (acc : Z) :
  Forall (λ x, (x < 256)%N) u → Forall (λ x, (x < 256)%N) v →
  0 ≤ acc → acc + 255 * Z.of_nat (length u) < 2 ^ 31 →
  let d := foldl (λ acc ab, int32 (acc + Z.abs (Z.of_N ab.1 - Z.of_N ab.2))) acc (zip u v) in
  acc ≤ d ≤ acc + 255 * Z.of_nat (length u) ∧
  (length u = length v → d = acc ↔ u = v).
Proof.
  intros Hu. revert v acc. induction Hu as [|a u Ha Hu IH]; intros v acc Hv Hacc Hfit.
  { simpl. split; [lia|]. intros Hlen. destruct v; [done|discriminate]. }
  destruct Hv as [|b v Hb Hv].
  { simpl. split; [lia|]. intros Hlen. discriminate. }
  simpl length in *. simpl zip. simpl foldl.
  rewrite int32_small by lia.
  specialize (IH v (acc + Z.abs (Z.of_N a - Z.of_N b)) Hv ltac:(lia) ltac:(lia)).
  simpl in IH. destruct IH as [Hbound Hiff]. split; [lia|].
  intros Hlen. injection Hlen as Hlen. specialize (Hiff Hlen). split.
  - intros Hd. assert (a = b) as -> by lia.
    f_equal. apply Hiff. lia.
  - intros [= -> ->]. rewrite Z.sub_diag in *. simpl in *.
    rewrite Z.add_0_r in *. by apply Hiff.
Qed.

(** X5. For a point whose arrays hold [DIMS] values of [uint8_t]:
    [dist_from_original()] lies between [0] and [255 * DIMS] (the [int]
    sum does not overflow), it is [0] exactly when
    [is_in_original_position()] is true, and [incorrectness()] is the
    distance plus [10] when the orientation is not sorted, so it is [0]
    exactly when the point is in its original position and
    orientation. *)
Theorem point_distance_and_incorrectness (DIMS : dim_t) (p : Point.t) :
  (DIMS < 256)%N →
  length (Point.coords p) = N.to_nat DIMS →
  length (Point.original_coords p) = N.to_nat DIMS →
  Forall (λ x, (x < 256)%N) (Point.coords p) →
  Forall (λ x, (x < 256)%N) (Point.original_coords p) →
  0 ≤ Point.dist_from_original p ≤ 255 * Z.of_N DIMS ∧
  (Point.dist_from_original p = 0 ↔ Point.is_in_original_position p = true) ∧
  Point.incorrectness p
  = Point.dist_from_original p + (if Point.is_in_original_orientation p then 0 else 10) ∧
  (Point.incorrectness p = 0 ↔
   Point.is_in_original_position p = true ∧ Point.is_in_original_orientation p = true).
Proof.
  intros HD Hlen Hlen' Hall Hall'.
  destruct (dist_fold_uint8 (Point.coords p) (Point.original_coords p) 0 Hall Hall')
    as [Hbound Hiff]; [lia|rewrite Hlen; change (2 ^ 31) with 2147483648; lia|].
  fold (Point.dist_from_original p) in Hbound, Hiff.
  rewrite Hlen, N_nat_Z in Hbound. specialize (Hiff ltac:(congruence)).
  assert (Hpos : Point.dist_from_original p = 0 ↔ Point.is_in_original_position p = true).
  { unfold Point.is_in_original_position. by rewrite bool_decide_eq_true. }
  split; [lia|]. split; [done|].
  unfold Point.incorrectness. rewrite <- Hpos.
  destruct (Point.is_in_original_orientation p).
  - change (int32 (0 * 10)) with 0.
    rewrite int32_small by (change (2 ^ 31) with 2147483648; lia).
    split; [done|]. split; [intros; split; [lia|done] | intros [? _]; lia].
  - change (int32 (1 * 10)) with 10.
    rewrite int32_small by (change (2 ^ 31) with 2147483648; lia).
    split; [done|]. split; [lia | intros [_ ?]; done].
Qed.

Lemma point_distance_and_incorrectness_witness :
  0 ≤ Point.dist_from_original sample_point ≤ 255 * Z.of_N 3 ∧
  (Point.dist_from_original sample_point = 0 ↔
   Point.is_in_original_position sample_point = true) ∧
  Point.incorrectness sample_point
  = Point.dist_from_original sample_point
    + (if Point.is_in_original_orientation sample_point then 0 else 10) ∧
  (Point.incorrectness sample_point = 0 ↔
   Point.is_in_original_position sample_point = true ∧
   Point.is_in_original_orientation sample_point = true).
Proof.
  apply (point_distance_and_incorrectness 3%N sample_point);
    [lia | reflexivity | reflexivity | |];
    apply (bool_decide_unpack _); vm_compute; exact I.
Defined.

(** ** What [Point::rotate] leaves alone *)

Lemma turn_orientation_perm r v o :
  turn_orientation r v o ≡ₚ o.
Proof.
  unfold turn_orientation. repeat case_match; try done.
  unfold Point.set, Point.get in *. by apply Permutation_insert_swap.
Qed.

(** X6. [Point::rotate] with a valid rotation writes two cells of
    [coords] and two cells of [orientation] at most: after it
    [original_coords] and every cell of [coords] and [orientation] other
    than [from] and [to] are as before, [orientation] holds the same
    values as before, and the point is still in the grid. *)
Theorem point_rotate_touches_two_cells (DIMS : dim_t) (r : Rotation.t) (p p' : Point.t) :
  valid_rotation DIMS r →
  wf_point DIMS p →
  Point.rotate DIMS r p = Some p' →
  Point.original_coords p' = Point.original_coords p ∧
  (∀ k : dim_t, k ≠ Rotation.from r → k ≠ Rotation.to r →
     Point.get (Point.coords p') k = Point.get (Point.coords p) k ∧
     Point.get (Point.orientation p') k = Point.get (Point.orientation p) k) ∧
  Point.orientation p' ≡ₚ Point.orientation p ∧
  wf_point DIMS p'.
Proof.
  intros Hr Hp. rewrite (rotate_turn DIMS r Hr p Hp). intros [= <-].
  split; [done|]. split; [|split; [apply turn_orientation_perm|by apply turn_wf]].
  intros k Hkf Hkt. simpl. unfold turn_coords, turn_orientation.
  split; repeat case_match; try done; by rewrite !get_set_ne.
Qed.

Lemma point_rotate_touches_two_cells_witness :
  Point.original_coords (turn sample_rotation sample_point)
  = Point.original_coords sample_point ∧
  (∀ k : dim_t, k ≠ 2%N → k ≠ 0%N →
     Point.get (Point.coords (turn sample_rotation sample_point)) k
     = Point.get (Point.coords sample_point) k ∧
     Point.get (Point.orientation (turn sample_rotation sample_point)) k
     = Point.get (Point.orientation sample_point) k) ∧
  Point.orientation (turn sample_rotation sample_point)
    ≡ₚ Point.orientation sample_point ∧
  wf_point 3%N (turn sample_rotation sample_point).
Proof.
  apply (point_rotate_touches_two_cells 3%N sample_rotation sample_point);
    [apply (bool_decide_unpack _); vm_compute; exact I
    |apply (bool_decide_unpack _); vm_compute; exact I
    |reflexivity].
Defined.

(** *** Center points *)

Lemma all_ones (v : list N) :
  length (filter (λ y, y = 1%N) v) = length v → Forall (λ y, y = 1%N) v.
Proof.
  induction v as [|a v IH]; [done|].
  rewrite filter_cons. destruct (decide (a = 1%N)) as [->|Hne]; simpl.
  - intros [= H]. constructor; [done|by apply IH].
  - intros H. pose proof (length_filter (λ y, y = 1%N) v). lia.
Qed.

Lemma one_cell_off (v : list N) (i j : nat) (x y : N) :
  (length (filter (λ y, y = 1%N) v) + 1 = length v)%nat →
  i ≠ j → v !! i = Some x → x ≠ 1%N → v !! j = Some y → y = 1%N.
Proof.
  revert i j. induction v as [|a v IH]; intros i j Hcount Hij Hi Hx Hj; [done|].
  rewrite filter_cons in Hcount. destruct (decide (a = 1%N)) as [->|Hne]; simpl in Hcount.
  - destruct i as [|i]; [simpl in Hi; congruence|].
    destruct j as [|j]; [simpl in Hj; congruence|].
    simpl in Hi, Hj. eapply (IH i j); [lia|lia|done..].
  - assert (Hall : Forall (λ y, y = 1%N) v) by (apply all_ones; lia).
    rewrite Forall_lookup in Hall.
    destruct i as [|i]; [|simpl in Hi; by apply Hall in Hi].
    destruct j as [|j]; [done|]. simpl in Hj. by apply Hall in Hj.
Qed.

(** X7. A center point (exactly [DIMS - 1] coordinates are [1]) is
    never moved by a turn of a [FRONT] or [BACK] slice: [Point::rotate]
    with a valid rotation whose side is [FRONT] or [BACK] leaves its
    [coords] as they are, so it stays a center point in its original
    position; only its orientation can change. (A rotation with side
    [1], which the assertions let through, does move center points.) *)
Theorem center_point_is_not_moved (DIMS : dim_t) (r : Rotation.t) (p p' : Point.t) :
  valid_rotation DIMS r →
  valid_side r →
  wf_point DIMS p →
  Point.is_center DIMS p = true →
  Point.rotate DIMS r p = Some p' →
  Point.coords p' = Point.coords p ∧
  Point.is_center DIMS p' = true ∧
  Point.is_in_original_position p' = Point.is_in_original_position p.
Proof.
  intros Hr Hs Hp Hcenter. rewrite (rotate_turn DIMS r Hr p Hp). intros [= <-].
  assert (Hsame : turn_coords r (Point.coords p) = Point.coords p).
  { destruct Hp as (_ & [Hlen Hall] & _).
    destruct Hr as (H1 & H2 & H3 & H4 & H5 & H6).
    unfold Point.is_center, Point.count in Hcenter. apply Z.eqb_eq in Hcenter.
    assert (Hcount : (length (filter (λ y, y = 1%N) (Point.coords p)) + 1
                      = length (Point.coords p))%nat) by lia.
    unfold turn_coords.
    destruct (Point.get (Point.coords p) (Rotation.axis r)) as [a|] eqn:Ea; [|done].
    destruct (Point.get (Point.coords p) (Rotation.from r)) as [x|] eqn:Ex; [|done].
    destruct (Point.get (Point.coords p) (Rotation.to r)) as [y|] eqn:Ey; [|done].
    destruct (N.eqb_spec a (Side_value (Rotation.side r))) as [->|Hne]; [|done].
    assert (Hside : Side_value (Rotation.side r) ≠ 1%N)
      by (unfold Side_value; by destruct Hs as [-> | ->]).
    unfold Point.get in *.
    assert (x = 1%N) as ->
      by (eapply (one_cell_off _ (N.to_nat (Rotation.axis r)) (N.to_nat (Rotation.from r)));
          [exact Hcount|lia|exact Ea|exact Hside|exact Ex]).
    assert (y = 1%N) as ->
      by (eapply (one_cell_off _ (N.to_nat (Rotation.axis r)) (N.to_nat (Rotation.to r)));
          [exact Hcount|lia|exact Ea|exact Hside|exact Ey]).
    change (2 - 1)%N with 1%N. by apply set_pair_id. }
  unfold Point.is_center, Point.is_in_original_position in *. simpl.
  by rewrite !Hsame.
Qed.

Lemma center_point_is_not_moved_witness :
  Point.coords (turn sample_rotation sample_center) = Point.coords sample_center ∧
  Point.is_center 3%N (turn sample_rotation sample_center) = true ∧
  Point.is_in_original_position (turn sample_rotation sample_center)
  = Point.is_in_original_position sample_center.
Proof.
  apply (center_point_is_not_moved 3%N sample_rotation sample_center);
    [apply (bool_decide_unpack _); vm_compute; exact I
    |apply (bool_decide_unpack _); vm_compute; exact I
    |apply (bool_decide_unpack _); vm_compute; exact I
    |reflexivity|reflexivity].
Defined.

(** ** Composing rotations of a cube *)

Lemma rotate_n_add DIMS r m n c :
  Cube.rotate_n DIMS r (m + n) c = Cube.rotate_n DIMS r m c ≫= Cube.rotate_n DIMS r n.
Proof.
  revert c. induction m as [|m IH]; intros c; simpl; [done|].
  destruct (Cube.rotate DIMS r c) as [c'|]; simpl; [apply IH|done].
Qed.

Lemma rotate_n_wf DIMS r n c :
  valid_rotation DIMS r → wf_cube DIMS c →
  ∃ c', Cube.rotate_n DIMS r n c = Some c' ∧ wf_cube DIMS c'.
Proof.
  intros Hr. revert c. induction n as [|n IH]; intros c Hc; simpl; [by exists c|].
  rewrite (cube_rotate_turn DIMS r Hr c Hc). simpl.
  apply IH. by apply cube_turn_wf.
Qed.

(** X8. On a cube whose points lie in the grid, [rotate_n(r, n)] with a
    valid rotation always returns, and what it returns depends on [n]
    modulo 4 only; [rotate_n(r, m + n)] is [rotate_n(r, m)] followed by
    [rotate_n(r, n)]. *)
Theorem rotate_n_mod_4 (DIMS : dim_t) (r : Rotation.t) (c : Cube.t) (m n : nat) :
  valid_rotation DIMS r →
  wf_cube DIMS c →
  is_Some (Cube.rotate_n DIMS r n c) ∧
  Cube.rotate_n DIMS r n c = Cube.rotate_n DIMS r (n mod 4) c ∧
  Cube.rotate_n DIMS r (m + n) c = Cube.rotate_n DIMS r m c ≫= Cube.rotate_n DIMS r n.
Proof.
  intros Hr Hc. split; [|split; [|apply rotate_n_add]].
  { destruct (rotate_n_wf DIMS r n c Hr Hc) as (c' & -> & _). by eexists. }
  induction n as [n IH] using lt_wf_ind.
  destruct (decide (n < 4)%nat) as [Hlt|Hge]; [by rewrite Nat.mod_small|].
  replace n with (4 + (n - 4))%nat at 1 by lia.
  rewrite rotate_n_add, (cube_rotate_4 DIMS r Hr c Hc). simpl.
  rewrite IH by lia.
  pose proof (Nat.Div0.mod_add (n - 4) 1 4) as Hmod.
  replace (n - 4 + 1 * 4)%nat with n in Hmod by lia.
  change (3 - (Nat.divmod n 3 0 3).2)%nat with (n mod 4)%nat. by rewrite Hmod.
Qed.

Lemma rotate_n_mod_4_witness :
  is_Some (Cube.rotate_n 3%N sample_rotation 7 sample_cube) ∧
  Cube.rotate_n 3%N sample_rotation 7 sample_cube
  = Cube.rotate_n 3%N sample_rotation (7 mod 4) sample_cube ∧
  Cube.rotate_n 3%N sample_rotation (2 + 7) sample_cube
  = Cube.rotate_n 3%N sample_rotation 2 sample_cube ≫= Cube.rotate_n 3%N sample_rotation 7.
Proof.
  apply (rotate_n_mod_4 3%N sample_rotation sample_cube 2 7);
    apply (bool_decide_unpack _); vm_compute; exact I.
Defined.

Lemma reverse_valid DIMS r : valid_rotation DIMS r → valid_rotation DIMS (reverse_rotation r).
Proof.
  unfold valid_rotation, reverse_rotation. simpl.
  intros (H1 & H2 & H3 & H4 & H5 & H6). repeat split; done.
Qed.

Lemma turn_off_slice r p a :
  Point.get (Point.coords p) (Rotation.axis r) = Some a →
  a ≠ Side_value (Rotation.side r) → turn r p = p.
Proof.
  intros Ea Hne. destruct p as [oc v o]. unfold turn. simpl in *.
  by rewrite (turn_coords_off r v a), (turn_orientation_off r v o a).
Qed.

Lemma turn_reverse DIMS r p :
  valid_rotation DIMS r → wf_point DIMS p → turn r (turn (reverse_rotation r) p) = p.
Proof.
  intros Hr Hp. pose proof (reverse_valid DIMS r Hr) as Hr'.
  pose proof Hr as (H1 & H2 & H3 & H4 & H5 & H6).
  destruct p as [oc v o]. destruct Hp as (Hoc & Hv & Ho). simpl in *.
  pose proof Hv as [Hlen Hall].
  destruct (get_is_Some v (Rotation.axis r)) as [a Ea]; [lia|].
  destruct (decide (a = Side_value (Rotation.side r))) as [->|Hne].
  2:{ rewrite (turn_off_slice (reverse_rotation r) _ a) by done.
      by apply (turn_off_slice r _ a). }
  destruct (get_is_Some v (Rotation.from r)) as [x Ex]; [lia|].
  destruct (get_is_Some v (Rotation.to r)) as [y Ey]; [lia|].
  destruct (get_is_Some o (Rotation.from r)) as [ox Eox]; [lia|].
  destruct (get_is_Some o (Rotation.to r)) as [oy Eoy]; [lia|].
  pose proof (in_grid_get _ _ _ _ Hv Ex). pose proof (in_grid_get _ _ _ _ Hv Ey).
  unfold turn at 2. simpl.
  assert (Hc : turn_coords (reverse_rotation r) v
               = Point.set (Point.set v (Rotation.from r) y) (Rotation.to r) (2 - x)%N).
  { unfold turn_coords, reverse_rotation. simpl. rewrite Ea, Ex, Ey, N.eqb_refl.
    by apply set_set_ne. }
  assert (Ho' : turn_orientation (reverse_rotation r) v o
                = Point.set (Point.set o (Rotation.from r) oy) (Rotation.to r) ox).
  { unfold turn_orientation, reverse_rotation. simpl. rewrite Ea, Eox, Eoy, N.eqb_refl.
    by apply set_set_ne. }
  rewrite Hc, Ho'. unfold turn. simpl. f_equal.
  - rewrite (turn_coords_on DIMS r Hr) by done.
    replace (2 - (2 - x))%N with x by lia. by apply set_pair_id.
  - rewrite (turn_orientation_on DIMS r Hr);
      [by apply set_pair_id | done | by rewrite !get_set_ne].
Qed.

Lemma turn_reverse_is_turn_3 DIMS r p :
  valid_rotation DIMS r → wf_point DIMS p →
  turn (reverse_rotation r) p = turn r (turn r (turn r p)).
Proof.
  intros Hr Hp.
  rewrite <- (turn_reverse DIMS r p Hr Hp) at 2.
  symmetry. apply (turn_4 DIMS r Hr).
  by apply turn_wf.
Qed.

(** X9. The rotation with [from] and [to] exchanged is the inverse
    quarter turn: on a cube whose points lie in the grid it does what
    [undo_rotation(r)] does, and [rotate(r)] followed by it gives the
    cube back. *)
Theorem reverse_rotation_undoes (DIMS : dim_t) (r : Rotation.t) (c : Cube.t) :
  valid_rotation DIMS r →
  wf_cube DIMS c →
  valid_rotation DIMS (reverse_rotation r) ∧
  Cube.rotate DIMS (reverse_rotation r) c = Cube.undo_rotation DIMS r c ∧
  (Cube.rotate DIMS r c ≫= Cube.rotate DIMS (reverse_rotation r)) = Some c.
Proof.
  intros Hr Hc. pose proof (reverse_valid DIMS r Hr) as Hr'.
  assert (Hrev : ∀ c, wf_cube DIMS c →
            Cube.rotate DIMS (reverse_rotation r) c = Cube.undo_rotation DIMS r c).
  { clear c Hc. intros c Hc. unfold Cube.undo_rotation. simpl.
    pose proof (cube_turn_wf DIMS r _ Hc) as Hc1.
    pose proof (cube_turn_wf DIMS r _ Hc1) as Hc2.
    rewrite (cube_rotate_turn DIMS _ Hr' c Hc).
    rewrite (cube_rotate_turn DIMS r Hr c Hc). simpl.
    rewrite (cube_rotate_turn DIMS r Hr) by done. simpl.
    rewrite (cube_rotate_turn DIMS r Hr) by done. simpl.
    do 2 f_equal. rewrite <- !list_fmap_compose.
    apply Forall_fmap_ext. eapply Forall_impl; [|exact Hc].
    intros p Hp. simpl. by apply (turn_reverse_is_turn_3 DIMS). }
  split; [done|]. split; [by apply Hrev|].
  rewrite (cube_rotate_turn DIMS r Hr c Hc). simpl.
  rewrite Hrev by (by apply cube_turn_wf).
  eapply cube_rotate_undo; [done..|]. by apply cube_rotate_turn.
Qed.

Lemma reverse_rotation_undoes_witness :
  valid_rotation 3%N (reverse_rotation sample_rotation) ∧
  Cube.rotate 3%N (reverse_rotation sample_rotation) sample_cube
  = Cube.undo_rotation 3%N sample_rotation sample_cube ∧
  (Cube.rotate 3%N sample_rotation sample_cube
   ≫= Cube.rotate 3%N (reverse_rotation sample_rotation)) = Some sample_cube.
Proof.
  apply (reverse_rotation_undoes 3%N sample_rotation sample_cube);
    apply (bool_decide_unpack _); vm_compute; exact I.
Defined.

Lemma turn_opposite_sides DIMS r1 r2 p :
  valid_rotation DIMS r1 → valid_rotation DIMS r2 →
  Rotation.axis r1 = Rotation.axis r2 → Rotation.side r1 ≠ Rotation.side r2 →
  wf_point DIMS p → turn r1 (turn r2 p) = turn r2 (turn r1 p).
Proof.
  intros Hr1 Hr2 Hax Hside Hp.
  pose proof Hp as (_ & Hv & _). pose proof Hv as [Hlen _].
  pose proof Hr1 as (_ & _ & _ & H4 & _).
  destruct (get_is_Some (Point.coords p) (Rotation.axis r1)) as [a Ea]; [lia|].
  assert (Hsides : Side_value (Rotation.side r1) ≠ Side_value (Rotation.side r2))
    by (by unfold Side_value).
  destruct (decide (a = Side_value (Rotation.side r1))) as [->|Hne1].
  - assert (E2 : turn r2 p = p)
      by (apply (turn_off_slice r2 p (Side_value (Rotation.side r1))); congruence).
    rewrite E2. symmetry.
    apply (turn_off_slice r2 _ (Side_value (Rotation.side r1))); [|done].
    simpl. rewrite <- Hax. by rewrite (turn_coords_axis DIMS r1 Hr1).
  - assert (E1 : turn r1 p = p) by (by apply (turn_off_slice r1 p a)).
    rewrite E1. apply (turn_off_slice r1 _ a); [|done].
    simpl. rewrite Hax. rewrite (turn_coords_axis DIMS r2 Hr2) by done. by rewrite <- Hax.
Qed.

(** X10. Quarter turns of the two opposite slices of one axis commute:
    for valid rotations with the same [axis] and different [side],
    [rotate(r1)] then [rotate(r2)] gives the cube of [rotate(r2)] then
    [rotate(r1)]. *)
Theorem opposite_slices_commute (DIMS : dim_t) (r1 r2 : Rotation.t) (c : Cube.t) :
  valid_rotation DIMS r1 →
  valid_rotation DIMS r2 →
  Rotation.axis r1 = Rotation.axis r2 →
  Rotation.side r1 ≠ Rotation.side r2 →
  wf_cube DIMS c →
  is_Some (Cube.rotate DIMS r1 c ≫= Cube.rotate DIMS r2) ∧
  (Cube.rotate DIMS r1 c ≫= Cube.rotate DIMS r2)
  = (Cube.rotate DIMS r2 c ≫= Cube.rotate DIMS r1).
Proof.
  intros Hr1 Hr2 Hax Hside Hc.
  rewrite (cube_rotate_turn DIMS r1 Hr1 c Hc), (cube_rotate_turn DIMS r2 Hr2 c Hc). simpl.
  rewrite (cube_rotate_turn DIMS r2 Hr2) by (by apply cube_turn_wf).
  rewrite (cube_rotate_turn DIMS r1 Hr1) by (by apply cube_turn_wf).
  split; [by eexists|]. simpl. do 2 f_equal. rewrite <- !list_fmap_compose.
  apply Forall_fmap_ext. eapply Forall_impl; [|exact Hc].
  intros p Hp. simpl. symmetry. by apply (turn_opposite_sides DIMS).
Qed.

Lemma opposite_slices_commute_witness :
  is_Some (Cube.rotate 3%N sample_rotation sample_cube
           ≫= Cube.rotate 3%N sample_rotation_front) ∧
  (Cube.rotate 3%N sample_rotation sample_cube ≫= Cube.rotate 3%N sample_rotation_front)
  = (Cube.rotate 3%N sample_rotation_front sample_cube ≫= Cube.rotate 3%N sample_rotation).
Proof.
  apply (opposite_slices_commute 3%N sample_rotation sample_rotation_front sample_cube);
    [apply (bool_decide_unpack _); vm_compute; exact I
    |apply (bool_decide_unpack _); vm_compute; exact I
    |reflexivity
    |discriminate
    |apply (bool_decide_unpack _); vm_compute; exact I].
Defined.

Lemma undo_all_app DIMS rs1 rs2 c :
  undo_all DIMS (rs1 ++ rs2) c = undo_all DIMS rs1 c ≫= undo_all DIMS rs2.
Proof.
  revert c. induction rs1 as [|r rs1 IH]; intros c; [done|].
  change (undo_all DIMS ((r :: rs1) ++ rs2) c)
    with (Cube.undo_rotation DIMS r c ≫= undo_all DIMS (rs1 ++ rs2)).
  change (undo_all DIMS (r :: rs1) c)
    with (Cube.undo_rotation DIMS r c ≫= undo_all DIMS rs1).
  destruct (Cube.undo_rotation DIMS r c) as [c1|]; [apply IH|done].
Qed.

Lemma rotate_all_wf DIMS rs c :
  Forall (valid_rotation DIMS) rs → wf_cube DIMS c →
  ∃ c', rotate_all DIMS rs c = Some c' ∧ wf_cube DIMS c'.
Proof.
  intros Hrs. revert c. induction Hrs as [|r rs Hr Hrs IH]; intros c Hc.
  { by exists c. }
  simpl. rewrite (cube_rotate_turn DIMS r Hr c Hc). simpl.
  apply IH. by apply cube_turn_wf.
Qed.

(** X11. A sequence of valid rotations is taken back by
    [undo_rotation] of each of them in the reverse order: from a cube
    whose points lie in the grid, the rotations return a cube, and the
    undoing returns the cube they started from. *)
Theorem undo_all_reverses (DIMS : dim_t) (rs : list Rotation.t) (c : Cube.t) :
  Forall (valid_rotation DIMS) rs →
  wf_cube DIMS c →
  ∃ c', rotate_all DIMS rs c = Some c' ∧ wf_cube DIMS c' ∧
        undo_all DIMS (reverse rs) c' = Some c.
Proof.
  intros Hrs. revert c. induction Hrs as [|r rs Hr Hrs IH]; intros c Hc.
  { exists c. by repeat split. }
  simpl. rewrite (cube_rotate_turn DIMS r Hr c Hc). simpl.
  destruct (IH _ (cube_turn_wf DIMS r c Hc)) as (c' & Hrot & Hwf & Hundo).
  exists c'. split; [done|]. split; [done|].
  rewrite reverse_cons, undo_all_app, Hundo. simpl.
  change (Cube.undo_rotation DIMS r (Cube.mk (turn r <$> Cube.points c))
          ≫= (λ c', Some c') = Some c).
  rewrite (cube_rotate_undo DIMS r Hr c _ Hc); [done|]. by apply cube_rotate_turn.
Qed.

Lemma undo_all_reverses_witness :
  ∃ c', rotate_all 3%N twist_centres sample_cube = Some c' ∧ wf_cube 3%N c' ∧
        undo_all 3%N (reverse twist_centres) c' = Some sample_cube.
Proof.
  apply (undo_all_reverses 3%N twist_centres sample_cube);
    apply (bool_decide_unpack _); vm_compute; exact I.
Defined.

(** ** The constructed cube, cell by cell *)

Lemma home_at DIMS v c :
  (DIMS ≤ MAX_DIMS)%N → in_grid DIMS v → Cube.new DIMS = Some c →
  0 ≤ encode v < 3 ^ Z.of_N DIMS ∧
  digits (encode v) (N.to_nat DIMS) = v ∧
  Cube.points c !! Z.to_nat (encode v) = Some (home DIMS (encode v)).
Proof.
  intros HD [Hlen Hall] Hnew.
  assert (Hb : 0 ≤ encode v < 3 ^ Z.of_N DIMS).
  { pose proof (encode_bound v Hall) as Hb. by rewrite Hlen, N_nat_Z in Hb. }
  split; [done|]. split; [rewrite <- Hlen; by apply digits_encode|].
  rewrite cube_new_homes in Hnew by done. injection Hnew as <-. simpl.
  rewrite list_lookup_fmap, (lookup_seq_lt 0) by lia. simpl.
  by rewrite Z2Nat.id by lia.
Qed.

(** X12. Decoding inverts encoding: for [DIMS] up to [MAX_DIMS] and a
    vector [v] of the grid, the mixed radix 3 number of [v] is an index
    below [3^DIMS], [from_index] of it returns a point with
    [coords = original_coords = v], and that is the point the constructor
    puts at this index. *)
Theorem from_index_of_encode (DIMS : dim_t) (v : list N) (c : Cube.t) :
  (DIMS ≤ MAX_DIMS)%N →
  in_grid DIMS v →
  Cube.new DIMS = Some c →
  0 ≤ encode v < 3 ^ Z.of_N DIMS ∧
  ∃ p, Point.from_index DIMS (encode v) = Some p ∧
       Cube.points c !! Z.to_nat (encode v) = Some p ∧
       Point.coords p = v ∧ Point.original_coords p = v.
Proof.
  intros HD Hv Hnew.
  destruct (home_at DIMS v c HD Hv Hnew) as (Hb & Hdigits & Hlookup).
  split; [done|]. exists (home DIMS (encode v)).
  split; [apply from_index_home; unfold MAX_DIMS in HD; lia|].
  split; [done|]. by split.
Qed.

Lemma from_index_of_encode_witness :
  0 ≤ encode [0; 2; 1]%N < 3 ^ Z.of_N 3 ∧
  ∃ p, Point.from_index 3%N (encode [0; 2; 1]%N) = Some p ∧
       Cube.points sample_cube !! Z.to_nat (encode [0; 2; 1]%N) = Some p ∧
       Point.coords p = [0; 2; 1]%N ∧ Point.original_coords p = [0; 2; 1]%N.
Proof.
  apply (from_index_of_encode 3%N [0; 2; 1]%N sample_cube).
  - unfold MAX_DIMS. lia.
  - apply (bool_decide_unpack _); vm_compute; exact I.
  - reflexivity.
Defined.

(** ** After the first quarter turn *)

(** X13. One valid rotation of a [FRONT] or [BACK] slice of the
    constructed cube always leaves it unsolved: [rotate(r)] returns and
    [is_solved()] is false after it. (A rotation with side [3], which
    the assertions let through, lies on no slice and changes nothing.) *)
Theorem first_turn_unsolves (DIMS : dim_t) (r : Rotation.t) (c : Cube.t) :
  (DIMS ≤ MAX_DIMS)%N →
  valid_rotation DIMS r →
  valid_side r →
  Cube.new DIMS = Some c →
  ∃ c', Cube.rotate DIMS r c = Some c' ∧ Cube.is_solved DIMS c' = false.
Proof.
  intros HD Hr Hs Hnew.
  assert (Hreach : reachable DIMS c) by (by apply reachable_new).
  destruct (reachable_inv DIMS c HD Hreach) as (Hwf & _ & _).
  exists (Cube.mk (turn r <$> Cube.points c)).
  split; [by apply cube_rotate_turn|].
  pose proof Hr as (H1 & H2 & H3 & H4 & H5 & H6).
  set (v := Point.set (replicate (N.to_nat DIMS) 0%N) (Rotation.axis r)
                      (Side_value (Rotation.side r))).
  assert (Hv : in_grid DIMS v).
  { apply in_grid_set; [|unfold Side_value; by destruct Hs as [-> | ->]].
    split; [apply length_replicate|]. apply Forall_replicate. lia. }
  destruct (home_at DIMS v c HD Hv Hnew) as (_ & Hdigits & Hlookup).
  assert (Hin : In (turn r (home DIMS (encode v))) (turn r <$> Cube.points c)).
  { apply in_map, list_elem_of_In. by eapply list_elem_of_lookup_2. }
  apply not_true_iff_false. intros Hsolved.
  unfold Cube.is_solved in Hsolved. simpl in Hsolved.
  rewrite forallb_forall in Hsolved. specialize (Hsolved _ Hin).
  apply andb_prop in Hsolved as [Hpos _].
  unfold Point.is_in_original_position in Hpos. apply bool_decide_eq_true in Hpos.
  simpl in Hpos. rewrite Hdigits in Hpos.
  assert (Ea : Point.get v (Rotation.axis r) = Some (Side_value (Rotation.side r)))
    by (apply get_set_eq; rewrite length_replicate; lia).
  assert (Ex : Point.get v (Rotation.from r) = Some 0%N).
  { unfold v. rewrite get_set_ne by done. apply lookup_replicate_2. lia. }
  assert (Ey : Point.get v (Rotation.to r) = Some 0%N).
  { unfold v. rewrite get_set_ne by done. apply lookup_replicate_2. lia. }
  unfold turn_coords in Hpos. rewrite Ea, Ex, Ey, N.eqb_refl in Hpos.
  apply (f_equal (λ u, Point.get u (Rotation.from r))) in Hpos.
  rewrite get_set_ne, get_set_eq, Ex in Hpos by (done || (destruct Hv; lia)).
  discriminate Hpos.
Qed.

Lemma first_turn_unsolves_witness :
  ∃ c', Cube.rotate 3%N sample_rotation sample_cube = Some c' ∧
        Cube.is_solved 3%N c' = false.
Proof.
  apply (first_turn_unsolves 3%N sample_rotation sample_cube).
  - unfold MAX_DIMS. lia.
  - apply (bool_decide_unpack _); vm_compute; exact I.
  - apply (bool_decide_unpack _); vm_compute; exact I.
  - reflexivity.
Defined.

(** ** Orientations *)

Lemma is_sorted_min a l :
  Point.is_sorted (a :: l) = true → Forall (λ y, (a ≤ y)%N) l ∧ Point.is_sorted l = true.
Proof.
  revert a. induction l as [|b l IH]; intros a; [done|].
  simpl. intros H. apply andb_prop in H as [Hab Hl]. apply N.leb_le in Hab.
  split; [|done]. destruct (IH b Hl) as [Hall _].
  constructor; [done|]. eapply Forall_impl; [|exact Hall]. intros y Hy. simpl in *. lia.
Qed.

Lemma sorted_perm_eq (l1 l2 : list N) :
  Point.is_sorted l1 = true → Point.is_sorted l2 = true → l1 ≡ₚ l2 → l1 = l2.
Proof.
  revert l2. induction l1 as [|a l1 IH]; intros l2 H1 H2 Hperm.
  { by apply Permutation_nil_l in Hperm. }
  destruct l2 as [|b l2]; [by apply Permutation_nil_r in Hperm|].
  destruct (is_sorted_min a l1 H1) as [Ha H1'].
  destruct (is_sorted_min b l2 H2) as [Hb H2'].
  assert (Hab : (b ≤ a)%N).
  { assert (Hin : a ∈ b :: l2) by (rewrite <- Hperm; left).
    apply elem_of_cons in Hin as [->|Hin]; [lia|].
    rewrite Forall_forall in Hb. apply Hb. by apply list_elem_of_In. }
  assert (Hba : (a ≤ b)%N).
  { assert (Hin : b ∈ a :: l1) by (rewrite Hperm; left).
    apply elem_of_cons in Hin as [->|Hin]; [lia|].
    rewrite Forall_forall in Ha. apply Ha. by apply list_elem_of_In. }
  assert (a = b) as -> by lia.
  f_equal. apply IH; [done..|]. by apply Permutation_cons_inv in Hperm.
Qed.

Lemma reachable_orientation DIMS c :
  (DIMS ≤ MAX_DIMS)%N → reachable DIMS c →
  Forall (λ p, Point.orientation p ≡ₚ Point.iota DIMS) (Cube.points c).
Proof.
  intros HD Hreach. induction Hreach as [c Hnew | r c c' Hreach IH Hr Hrot].
  - rewrite cube_new_homes in Hnew by done. injection Hnew as <-. simpl.
    apply Forall_fmap, Forall_forall. intros idx _. simpl. reflexivity.
  - destruct (reachable_inv DIMS c HD Hreach) as (Hwf & _ & _).
    rewrite (cube_rotate_turn DIMS r Hr c Hwf) in Hrot. injection Hrot as <-.
    simpl. apply Forall_fmap. eapply Forall_impl; [|exact IH].
    intros p Hp. simpl. by rewrite turn_orientation_perm.
Qed.

(** X14. In every state reached from the constructed cube by valid
    rotations ([DIMS] up to [MAX_DIMS]) the orientation of every point
    is a permutation of [0, 1, ..., DIMS - 1], and
    [is_in_original_orientation()] is true exactly when it is that
    sequence itself. *)
Theorem orientation_is_permutation (DIMS : dim_t) (c : Cube.t) (p : Point.t) :
  (DIMS ≤ MAX_DIMS)%N →
  reachable DIMS c →
  p ∈ Cube.points c →
  Point.orientation p ≡ₚ N.of_nat <$> seq 0 (N.to_nat DIMS) ∧
  (Point.is_in_original_orientation p = true ↔
   Point.orientation p = N.of_nat <$> seq 0 (N.to_nat DIMS)).
Proof.
  intros HD Hreach Hp.
  pose proof (reachable_orientation DIMS c HD Hreach) as Hall.
  rewrite Forall_forall in Hall. apply list_elem_of_In in Hp.
  specialize (Hall p Hp). simpl in Hall.
  rewrite iota_seq in Hall by (unfold MAX_DIMS in HD; lia).
  split; [done|]. unfold Point.is_in_original_orientation. split.
  - intros Hsorted. apply sorted_perm_eq; [done|apply is_sorted_seq|done].
  - intros ->. apply is_sorted_seq.
Qed.

Lemma orientation_is_permutation_witness :
  Point.orientation sample_point_off ≡ₚ N.of_nat <$> seq 0 (N.to_nat 3) ∧
  (Point.is_in_original_orientation sample_point_off = true ↔
   Point.orientation sample_point_off = N.of_nat <$> seq 0 (N.to_nat 3)).
Proof.
  apply (orientation_is_permutation 3%N sample_cube sample_point_off).
  - unfold MAX_DIMS. lia.
  - apply reachable_new. reflexivity.
  - apply (bool_decide_unpack _); vm_compute; exact I.
Defined.

(** ** [shuffle] and [solve] as sequences of rotations *)

Lemma rotate_all_app DIMS rs1 rs2 c :
  rotate_all DIMS (rs1 ++ rs2) c = rotate_all DIMS rs1 c ≫= rotate_all DIMS rs2.
Proof.
  revert c. induction rs1 as [|r rs1 IH]; intros c; simpl; [done|].
  destruct (Cube.rotate DIMS r c) as [c1|]; simpl; [apply IH|done].
Qed.

(** X15. [shuffle(times)] applies [times] valid rotations of [FRONT]
    or [BACK] slices, one after the other: when it returns, the cube is
    the one these rotations make of the cube it started from, its points
    still lie in the grid, and a cube that was reachable is reachable. *)
Theorem shuffle_applies_rotations (DIMS : dim_t) (times : nat)
    (tape tape' : list N) (c c' : Cube.t) :
  (DIMS < 256)%N →
  wf_cube DIMS c →
  Cube.shuffle DIMS times tape c = Some (c', tape') →
  ∃ rs, length rs = times ∧ Forall (valid_rotation DIMS) rs ∧
        Forall valid_side rs ∧
        rotate_all DIMS rs c = Some c' ∧ wf_cube DIMS c' ∧
        tape' `suffix_of` tape ∧ (reachable DIMS c → reachable DIMS c').
Proof.
  intros HD. revert tape c. induction times as [|times IH]; intros tape c Hc; simpl.
  { intros [= <- <-]. exists []. by repeat split. }
  destruct (Rotation.random DIMS tape) as [[r tape1]|] eqn:Hrandom; [|done]. simpl.
  pose proof (random_valid DIMS _ _ _ HD Hrandom) as Hr.
  pose proof (random_side DIMS _ _ _ Hrandom) as Hside.
  rewrite (cube_rotate_turn DIMS r Hr c Hc). simpl. intros Hshuffle.
  destruct (IH _ _ (cube_turn_wf DIMS r c Hc) Hshuffle)
    as (rs & Hlen & Hrs & Hsides & Hrot & Hwf & Hsuf & Hreach).
  exists (r :: rs). split; [by rewrite <- Hlen|]. split; [by constructor|].
  split; [by constructor|].
  split; [simpl; by rewrite (cube_rotate_turn DIMS r Hr c Hc)|]. split; [done|]. split.
  - etrans; [exact Hsuf|]. by eapply random_reads.
  - intros Hc0. apply Hreach. eapply reachable_rotate; [done..|].
    by apply cube_rotate_turn.
Qed.

Lemma shuffle_applies_rotations_witness :
  ∃ rs, length rs = 1%nat ∧ Forall (valid_rotation 3%N) rs ∧
        Forall valid_side rs ∧
        rotate_all 3%N rs sample_cube = Some turned_cube ∧ wf_cube 3%N turned_cube ∧
        [42%N] `suffix_of` [1; 4; 5; 0; 42]%N ∧
        (reachable 3%N sample_cube → reachable 3%N turned_cube).
Proof.
  apply (shuffle_applies_rotations 3%N 1 [1; 4; 5; 0; 42]%N [42%N] sample_cube turned_cube).
  - lia.
  - apply (bool_decide_unpack _); vm_compute; exact I.
  - reflexivity.
Defined.

Lemma solve_body_step DIMS s s1 :
  (DIMS < 256)%N → wf_cube DIMS (Cube.cube s) →
  Cube.solve_body DIMS s = Some s1 →
  Cube.tape s1 `suffix_of` Cube.tape s ∧
  Cube.out s1 = Cube.out s ++ [Cube.print_unsolvedness (Cube.unsolvedness (Cube.cube s1))] ∧
  ∃ kept, Cube.rotations s1 = Cube.rotations s ++ kept ∧ (length kept ≤ 1)%nat ∧
          Forall (valid_rotation DIMS) kept ∧ Forall valid_side kept ∧
          rotate_all DIMS kept (Cube.cube s) = Some (Cube.cube s1).
Proof.
  intros HD Hwf. unfold Cube.solve_body.
  destruct (Rotation.random DIMS (Cube.tape s)) as [[r tape1]|] eqn:Hrandom; [|done].
  simpl. pose proof (random_valid DIMS _ _ _ HD Hrandom) as Hr.
  pose proof (random_side DIMS _ _ _ Hrandom) as Hside.
  destruct (random_reads DIMS _ _ _ Hrandom) as [Hsuf _].
  pose proof (cube_rotate_turn DIMS r Hr _ Hwf) as Hrot.
  pose proof (cube_rotate_undo DIMS r Hr _ _ Hwf Hrot) as Hundo.
  rewrite Hrot. simpl.
  destruct tape1 as [|x tape2]; [done|]. simpl.
  assert (Hsuf2 : tape2 `suffix_of` Cube.tape s)
    by (etrans; [|exact Hsuf]; by apply suffix_cons_r).
  destruct (_ >? _); destruct (_ <? _); simpl; rewrite ?Hundo; simpl;
    rewrite ?pop_back_push; intros [= <-]; simpl;
    (split; [done|]); (split; [done|]).
  - exists []. rewrite app_nil_r. repeat split; (done || simpl; lia).
  - exists [r]. repeat split; [done|by constructor|by constructor|].
    simpl. by rewrite Hrot.
  - exists []. rewrite app_nil_r. repeat split; (done || simpl; lia).
  - exists [r]. repeat split; [done|by constructor|by constructor|].
    simpl. by rewrite Hrot.
Qed.

(** X16. The history of [solve] is a faithful record: when the loop
    returns (after at most [fuel] passes), the rotations it has appended
    to [rotations] are valid, of [FRONT] or [BACK] slices, at most [fuel]
    many, and applied in order
    to the cube it started from they give the cube it ends with, which
    is solved; the last line written is the length of [rotations]. *)
Theorem solve_history_replays (DIMS : dim_t) (fuel : nat) (s s' : Cube.solver) :
  (DIMS < 256)%N →
  wf_cube DIMS (Cube.cube s) →
  Cube.solve_loop DIMS fuel s = Some s' →
  ∃ kept lines,
    Cube.rotations s' = Cube.rotations s ++ kept ∧
    (length kept ≤ fuel)%nat ∧
    Forall (valid_rotation DIMS) kept ∧
    Forall valid_side kept ∧
    rotate_all DIMS kept (Cube.cube s) = Some (Cube.cube s') ∧
    Cube.is_solved DIMS (Cube.cube s') = true ∧
    Cube.tape s' `suffix_of` Cube.tape s ∧
    Cube.out s'
    = Cube.out s ++ lines ++ [Cube.print_solved_in (length (Cube.rotations s'))].
Proof.
  intros HD. revert s. induction fuel as [|fuel IH]; intros s Hwf;
    rewrite solve_loop_unfold;
    destruct (Cube.is_solved DIMS (Cube.cube s)) eqn:Hsolved.
  - intros [= <-]. exists [], []. simpl. rewrite app_nil_r. by repeat split.
  - done.
  - intros [= <-]. exists [], []. simpl. rewrite app_nil_r.
    repeat split; (done || lia).
  - destruct (Cube.solve_body DIMS s) as [s1|] eqn:Hbody; [|done]. simpl.
    destruct (solve_body_step DIMS s s1 HD Hwf Hbody)
      as (Hsuf & Hout1 & kept1 & Hrot1 & Hlen1 & Hvalid1 & Hsides1 & Hreplay1).
    assert (Hwf1 : wf_cube DIMS (Cube.cube s1)).
    { destruct (rotate_all_wf DIMS kept1 (Cube.cube s) Hvalid1 Hwf)
        as (c1 & Hc1 & Hwf1). congruence. }
    intros Hloop.
    destruct (IH s1 Hwf1 Hloop)
      as (kept & lines & Hrot & Hlen & Hvalid & Hsides & Hreplay & Hdone & Hsuf' & Hout).
    exists (kept1 ++ kept),
           (Cube.print_unsolvedness (Cube.unsolvedness (Cube.cube s1)) :: lines).
    split; [by rewrite Hrot, Hrot1, app_assoc|].
    split; [rewrite length_app; lia|]. split; [by apply Forall_app|].
    split; [by apply Forall_app|].
    split; [by rewrite rotate_all_app, Hreplay1|]. split; [done|].
    split; [by etrans|]. rewrite Hout, Hout1. by rewrite <- !app_assoc.
Qed.

Lemma solve_history_replays_witness :
  ∃ kept lines,
    [reverse_rotation sample_rotation] = Cube.rotations turned_solver ++ kept ∧
    (length kept ≤ 1)%nat ∧
    Forall (valid_rotation 3%N) kept ∧
    Forall valid_side kept ∧
    rotate_all 3%N kept (Cube.cube turned_solver) = Some sample_cube ∧
    Cube.is_solved 3%N sample_cube = true ∧
    [] `suffix_of` Cube.tape turned_solver ∧
    [Cube.print_unsolvedness 0; Cube.print_solved_in 1]
    = Cube.out turned_solver ++ lines
      ++ [Cube.print_solved_in (length [reverse_rotation sample_rotation])].
Proof.
  apply (solve_history_replays 3%N 1 turned_solver
           (Cube.mk_solver sample_cube [reverse_rotation sample_rotation] []
              [Cube.print_unsolvedness 0; Cube.print_solved_in 1])).
  - lia.
  - apply (bool_decide_unpack _); vm_compute; exact I.
  - vm_compute. reflexivity.
Defined.

(** ** [split] *)

Lemma getline_spec sep stream :
  let '(substr, behind) := getline sep stream in
  occurrences sep substr = O ∧
  match behind with
  | None => stream = substr
  | Some rest => stream = substr ++ sep :: rest
  end.
Proof.
  induction stream as [|ch rest IH]; simpl; [done|].
  destruct (Ascii.eqb_spec ch sep) as [->|Hne]; [done|].
  destruct (getline sep rest) as [substr behind]. destruct IH as [Hocc Hleft].
  simpl. destruct (Ascii.eqb_spec ch sep) as [|_]; [done|].
  split; [done|]. destruct behind; by rewrite Hleft at 1.
Qed.

Lemma occurrences_app sep s1 s2 :
  occurrences sep (s1 ++ s2) = (occurrences sep s1 + occurrences sep s2)%nat.
Proof. induction s1 as [|ch s1 IH]; simpl; [done|]. rewrite IH. lia. Qed.

Lemma join_cons sep piece pieces :
  pieces ≠ [] → join sep (piece :: pieces) = piece ++ sep :: join sep pieces.
Proof. by destruct pieces. Qed.

Lemma split_loop_spec sep fuel stream result :
  (length stream < fuel)%nat →
  ∃ pieces, split_loop fuel sep stream result = Some (result ++ pieces) ∧
            length pieces = S (occurrences sep stream) ∧
            Forall (λ piece, occurrences sep piece = O) pieces ∧
            join sep pieces = stream.
Proof.
  revert stream result. induction fuel as [|fuel IH]; intros stream result Hfuel; [lia|].
  simpl. pose proof (getline_spec sep stream) as Hline.
  destruct (getline sep stream) as [substr [rest|]]; destruct Hline as [Hocc Hstream].
  - subst stream. rewrite length_app in Hfuel. simpl in Hfuel.
    destruct (IH rest (result ++ [substr]) ltac:(lia))
      as (pieces & Hloop & Hlen & Hall & Hjoin).
    exists (substr :: pieces). rewrite Hloop, <- app_assoc. split; [done|].
    split; [|split; [by constructor|]].
    + simpl. rewrite Hlen, occurrences_app, Hocc. simpl.
      by rewrite Ascii.eqb_refl.
    + rewrite join_cons by (by destruct pieces). by rewrite Hjoin.
  - subst stream. exists [substr]. split; [done|]. simpl.
    rewrite Hocc. by repeat constructor.
Qed.

(** X17. [split(string, sep)] always returns: the pieces are one more
    than [sep] occurs in [string] (so at least one: the empty string
    gives one empty piece), no piece holds [sep], and the pieces with
    [sep] between them are [string] again. *)
Theorem split_pieces (string : list ascii) (sep : ascii) :
  ∃ pieces, split string sep = Some pieces ∧
            length pieces = S (occurrences sep string) ∧
            Forall (λ piece, occurrences sep piece = O) pieces ∧
            join sep pieces = string.
Proof.
  destruct (split_loop_spec sep (S (length string)) string []) as (pieces & H); [lia|].
  by exists pieces.
Qed.

(** ** The range of [unsolvedness] *)

Lemma unsolvedness_fold_exact (ps : list Point.t) (bound acc : Z) :
  Forall (λ p, 0 ≤ Point.incorrectness p ≤ bound) ps →
  0 ≤ acc → acc + bound * Z.of_nat (length ps) < 2 ^ 31 →
  foldl (λ acc p, int32 (acc + Point.incorrectness p)) acc ps
  = acc + int_sum (Point.incorrectness <$> ps) ∧
  0 ≤ int_sum (Point.incorrectness <$> ps) ≤ bound * Z.of_nat (length ps).
Proof.
  intros Hps. revert acc. induction Hps as [|p ps Hp Hps IH]; intros acc Hacc Hfit.
  { simpl. lia. }
  simpl length in *. simpl foldl.
  assert (0 ≤ bound * Z.of_nat (length ps)) by nia.
  rewrite int32_small by lia.
  destruct (IH (acc + Point.incorrectness p) ltac:(lia) ltac:(lia)) as [Hfold Hsum].
  rewrite Hfold. rewrite fmap_cons. unfold int_sum in *. simpl foldr.
  rewrite Nat2Z.inj_succ. nia.
Qed.

(** X18. For [DIMS] up to [MAX_DIMS_INT_SUM] the [int] sum of
    [unsolvedness()] never overflows in a state reached from the
    constructed cube by valid rotations: it is the sum of
    [incorrectness()] over all points, and lies between [0] and
    [(2 * DIMS + 10) * 3^DIMS], which is below [2^31]. *)
Theorem unsolvedness_is_exact (DIMS : dim_t) (c : Cube.t) :
  (DIMS ≤ MAX_DIMS_INT_SUM)%N →
  reachable DIMS c →
  Cube.unsolvedness c = int_sum (Point.incorrectness <$> Cube.points c) ∧
  0 ≤ Cube.unsolvedness c ≤ (2 * Z.of_N DIMS + 10) * 3 ^ Z.of_N DIMS ∧
  (2 * Z.of_N DIMS + 10) * 3 ^ Z.of_N DIMS < 2 ^ 31.
Proof.
  intros HD Hreach. pose proof (int_sum_fits DIMS HD) as Hfit.
  unfold MAX_DIMS_INT_SUM in HD.
  destruct (reachable_inv DIMS c) as (Hwf & Hgrid & Horig);
    [unfold MAX_DIMS; lia|done|].
  destruct c as [ps]. simpl in *.
  assert (Hlen : length ps = Z.to_nat (3 ^ Z.of_N DIMS)).
  { apply (f_equal length) in Horig. by rewrite !length_fmap, length_seq in Horig. }
  assert (Hinc : Forall (λ p, 0 ≤ Point.incorrectness p ≤ 2 * Z.of_N DIMS + 10) ps).
  { apply Forall_forall. intros p Hp. apply (incorrectness_bounds DIMS); [lia|..].
    - unfold wf_cube in Hwf. simpl in Hwf.
      rewrite Forall_forall in Hwf. by destruct (Hwf p Hp) as (_ & ? & _).
    - apply grid_listing. rewrite <- Horig. apply list_elem_of_fmap.
      exists p. split; [done|]. by apply list_elem_of_In. }
  pose proof (pow3_pos (Z.of_N DIMS) ltac:(lia)) as Hpow.
  destruct (unsolvedness_fold_exact ps (2 * Z.of_N DIMS + 10) 0 Hinc) as [Hfold Hsum];
    [lia | rewrite Hlen, Z2Nat.id by lia; lia |].
  unfold Cube.unsolvedness. simpl. rewrite Hfold.
  rewrite Hlen, Z2Nat.id in Hsum by lia.
  split; [lia|]. split; [lia|done].
Qed.

Lemma unsolvedness_is_exact_witness :
  Cube.unsolvedness turned_cube
  = int_sum (Point.incorrectness <$> Cube.points turned_cube) ∧
  0 ≤ Cube.unsolvedness turned_cube ≤ (2 * Z.of_N 3 + 10) * 3 ^ Z.of_N 3 ∧
  (2 * Z.of_N 3 + 10) * 3 ^ Z.of_N 3 < 2 ^ 31.
Proof.
  apply (unsolvedness_is_exact 3%N turned_cube).
  - unfold MAX_DIMS_INT_SUM. lia.
  - apply (reachable_rotate 3%N sample_rotation sample_cube).
    + apply reachable_new. reflexivity.
    + apply (bool_decide_unpack _); vm_compute; exact I.
    + reflexivity.
Defined.

(** ** What [Point::rotate] refuses *)

(** X19. The two assertions of [Point::rotate] are the only way a
    rotation can fail on a point of the grid: on such a point
    [Point::rotate] returns exactly when axis, from and to are pairwise
    different and below [DIMS]; and [Cube::rotate] on a cube of such
    points, when it has a point at all, returns exactly then. *)
Theorem rotate_returns_iff_valid (DIMS : dim_t) (r : Rotation.t) (p : Point.t) (c : Cube.t) :
  wf_point DIMS p →
  wf_cube DIMS c →
  Cube.points c ≠ [] →
  (is_Some (Point.rotate DIMS r p) ↔ valid_rotation DIMS r) ∧
  (is_Some (Cube.rotate DIMS r c) ↔ valid_rotation DIMS r).
Proof.
  intros Hp Hc Hne.
  assert (Hpoint : ∀ q, is_Some (Point.rotate DIMS r q) → valid_rotation DIMS r).
  { intros q [q' Hq]. unfold Point.rotate in Hq.
    destruct (negb (Rotation.axis r =? Rotation.from r)%N
              && negb (Rotation.from r =? Rotation.to r)%N
              && negb (Rotation.to r =? Rotation.axis r)%N) eqn:E1; [|done].
    destruct ((Rotation.axis r <? DIMS)%N && (Rotation.from r <? DIMS)%N
              && (Rotation.to r <? DIMS)%N) eqn:E2; [|done].
    clear Hq. rewrite !andb_true_iff, !negb_true_iff, !N.eqb_neq in E1.
    rewrite !andb_true_iff, !N.ltb_lt in E2. unfold valid_rotation. tauto. }
  split; split.
  - apply Hpoint.
  - intros Hr. rewrite (rotate_turn DIMS r Hr p Hp). by eexists.
  - intros [c' Hrot]. destruct c as [[|q ps]]; [done|].
    unfold Cube.rotate in Hrot. simpl in Hrot.
    destruct (Point.rotate DIMS r q) as [q'|] eqn:Hq; [|done].
    apply (Hpoint q). by eexists.
  - intros Hr. rewrite (cube_rotate_turn DIMS r Hr c Hc). by eexists.
Qed.

Lemma rotate_returns_iff_valid_witness :
  (is_Some (Point.rotate 3%N (Rotation.mk 1 1 0 BACK) sample_point)
   ↔ valid_rotation 3%N (Rotation.mk 1 1 0 BACK)) ∧
  (is_Some (Cube.rotate 3%N (Rotation.mk 1 1 0 BACK) sample_cube)
   ↔ valid_rotation 3%N (Rotation.mk 1 1 0 BACK)).
Proof.
  apply (rotate_returns_iff_valid 3%N (Rotation.mk 1 1 0 BACK) sample_point sample_cube).
  - apply (bool_decide_unpack _); vm_compute; exact I.
  - apply (bool_decide_unpack _); vm_compute; exact I.
  - vm_compute. discriminate.
Defined.

(** X20. On the slice of a valid rotation a coordinate outside
    [{0, 1, 2}] in the [from] or the [to] cell runs into a
    [default: assert(false)]: [Point::rotate] does not return. *)
Theorem rotate_refuses_outside_grid (DIMS : dim_t) (r : Rotation.t) (p : Point.t)
    (x y : coord_t) :
  valid_rotation DIMS r →
  length (Point.orientation p) = N.to_nat DIMS →
  Point.get (Point.coords p) (Rotation.axis r) = Some (Side_value (Rotation.side r)) →
  Point.get (Point.coords p) (Rotation.from r) = Some x →
  Point.get (Point.coords p) (Rotation.to r) = Some y →
  (3 ≤ x)%N ∨ (3 ≤ y)%N →
  Point.rotate DIMS r p = None.
Proof.
  intros Hr Ho Ea Ex Ey Hout.
  destruct (rotate_asserts DIMS r Hr) as [Ha1 Ha2].
  pose proof Hr as (H1 & H2 & H3 & H4 & H5 & H6).
  destruct (get_is_Some (Point.orientation p) (Rotation.from r)) as [ox Eox]; [lia|].
  destruct (get_is_Some (Point.orientation p) (Rotation.to r)) as [oy Eoy]; [lia|].
  unfold Point.rotate. rewrite Ha1, Ha2. simpl.
  rewrite Ea. simpl. rewrite N.eqb_refl. simpl. rewrite Eox, Eoy. simpl.
  rewrite Ex. simpl.
  destruct x as [|[[]|[]|]]; simpl; try done;
    rewrite ?Ey; simpl;
    destruct y as [|[[]|[]|]]; simpl; try done; exfalso; lia.
Qed.

Lemma rotate_refuses_outside_grid_witness :
  Point.rotate 3%N sample_rotation (Point.mk [2; 2; 0]%N [0; 2; 7]%N [0; 1; 2]%N) = None.
Proof.
  apply (rotate_refuses_outside_grid 3%N sample_rotation
           (Point.mk [2; 2; 0]%N [0; 2; 7]%N [0; 1; 2]%N) 7%N 0%N);
    [apply (bool_decide_unpack _); vm_compute; exact I
    |reflexivity|reflexivity|reflexivity|reflexivity|left; lia].
Defined.
